(** * PoissonDiskDistribution: a shallow embedding of
      [src/PoissonDiskDistribution.cpp] and the properties of its grid and of
      its three samplers.

    Conventions of the embedding.
    - A finite [float] is the rational it denotes: coordinates, radii and
      separations are [Q].  Every float operation of the source is the exact
      operation followed by the rounding to the nearest binary32 value, ties
      to even ([Num.fl32]); the angle, computed with the double [M_PI], is
      rounded to binary64 ([Num.fl64]) before it is stored in a [float].
      Infinities, NaN and the overflow beyond the largest finite float are
      outside the model.
    - An [int] is an integer of [Z]; where the code stores a product or a sum
      in an [int] (the number of cells, the flat index of a cell) the 32-bit
      wrap-around is written out, and so are the conversions to [uint32_t]
      and [size_t] (modulo [2^32] and [2^64]).  The conversion of a float to
      an integer type truncates toward zero; beyond the range of the
      destination type it is undefined behaviour in C++: the model keeps the
      truncated value, and the theorems that depend on it bound their inputs.
    - The random source ([cinder/Rand.h]) and [cos]/[sin] are collaborators of
      the program: the samplers are generic in them (classes [RandomSource]
      and [Trig]); concrete runs use a scripted source.
    - The [while] loop of a sampler is a recursion on a number of iterations
      ([fuel]); a run returns when some number of iterations suffices. *)

From Stdlib Require Import ZArith QArith Qround Qpower List Bool Lia Lqa Setoid.
Import ListNotations.

Set Implicit Arguments.

(* ------------------------------------------------------------------------- *)
(** ** Numeric conversions *)

Module Num.

(** [static_cast<int>( float )]: truncation toward zero. *)
Definition Qtrunc (q : Q) : Z := Z.quot (Qnum q) (Zpos (Qden q)).

(** Wrap-around of the unsigned 32-bit and 64-bit types. *)
Definition to_uint32 (z : Z) : Z := z mod 2 ^ 32.
Definition to_size_t (z : Z) : Z := z mod 2 ^ 64.

(** Conversion of an unsigned 32-bit value to [int] (two's complement). *)
Definition to_int32 (z : Z) : Z := (z + 2 ^ 31) mod 2 ^ 32 - 2 ^ 31.

(** [( uint32_t ) f] for a float [f]: truncation toward zero.  A truncated
    value that is negative or not below [2^32] is out of the range of the
    destination type, and the conversion is then undefined behaviour in C++;
    the usual lowering (conversion through a 64-bit integer register) keeps
    the low 32 bits, which is what is written here.  The theorems on the
    cell of a point take the truncated coordinates in the range. *)
Definition uint32_of_float (q : Q) : Z := to_uint32 (Qtrunc q).

(** [a < b] on floats. *)
Definition Qlt_bool (a b : Q) : bool := negb (Qle_bool b a).

(** *** Rounding to a binary floating-point format *)

(** [floor(log2 x)] for [x > 0]. *)
Definition ilog2 (x : Q) : Z :=
  let l := (Z.log2 (Qnum x) - Z.log2 (Zpos (Qden x)))%Z in
  if Qle_bool (2 ^ l) x then l else (l - 1)%Z.

(** The nearest integer, the even one of the two at a tie. *)
Definition rne (q : Q) : Z :=
  let f := Qfloor q in
  match Qcompare (q - inject_Z f) (1 # 2) with
  | Lt => f
  | Eq => if Z.even f then f else (f + 1)%Z
  | Gt => (f + 1)%Z
  end.

(** The nearest multiple of the unit in the last place of [x > 0], for a
    mantissa of [prec] bits and a least unit [2^emin] (the subnormal
    numbers). *)
Definition round_pos (prec emin : Z) (x : Q) : Q :=
  let e := Z.max (ilog2 x - (prec - 1)) emin in
  inject_Z (rne (x * 2 ^ (- e))) * 2 ^ e.

(** Rounding to nearest, ties to even; the result is in lowest terms. *)
Definition round (prec emin : Z) (x : Q) : Q :=
  match Qnum x with
  | Z0 => 0
  | Zpos _ => Qred (round_pos prec emin x)
  | Zneg _ => Qred (- round_pos prec emin (- x))
  end.

(** binary32 ([float]) and binary64 ([double]). *)
Definition fl32 : Q -> Q := round 24 (-149).
Definition fl64 : Q -> Q := round 53 (-1074).

(** The operations [+], [-], [*] and [/] on [float]. *)
Definition fadd (a b : Q) : Q := fl32 (a + b).
Definition fsub (a b : Q) : Q := fl32 (a - b).
Definition fmul (a b : Q) : Q := fl32 (a * b).
Definition fdiv (a b : Q) : Q := fl32 (a / b).

(** [( float ) i] for an integer [i]. *)
Definition float_of_int (i : Z) : Q := fl32 (inject_Z i).

(** The rationals that are values of [float]. *)
Definition isFloat (x : Q) : Prop := fl32 x == x.

(** The bounds on the error of one rounding to [float]: [2^-24] of the
    number, and half the least subnormal unit, [2^-150]. *)
Definition eps : Q := 1 # 16777216.
Definition eta : Q := 1 # 1427247692705959881058285969449495136382746624.

End Num.

(* ------------------------------------------------------------------------- *)
(** ** glm vectors *)

Record vec2 : Type := mkVec2 { vx : Q; vy : Q }.
Record ivec2 : Type := mkIvec2 { ix : Z; iy : Z }.

(** The points whose coordinates are values of [float]. *)
Definition isVec2 (p : vec2) : Prop := Num.isFloat (vx p) /\ Num.isFloat (vy p).

Module Glm.

(** [a + b], [a - b] and [a * s], component by component. *)
Definition plus (a b : vec2) : vec2 :=
  mkVec2 (Num.fadd (vx a) (vx b)) (Num.fadd (vy a) (vy b)).
Definition minus (a b : vec2) : vec2 :=
  mkVec2 (Num.fsub (vx a) (vx b)) (Num.fsub (vy a) (vy b)).
Definition times (a : vec2) (s : Q) : vec2 :=
  mkVec2 (Num.fmul (vx a) s) (Num.fmul (vy a) s).

(** [glm::length2( a )], that is [dot( a, a )]: the two products are
    rounded, then their sum. *)
Definition length2 (a : vec2) : Q :=
  Num.fadd (Num.fmul (vx a) (vx a)) (Num.fmul (vy a) (vy a)).

(** [ivec2( v )] and [ivec2( s )]: component-wise conversion to [int], by
    truncation; beyond the range of [int] the conversion is undefined
    behaviour in C++, and the theorems on the window of a query bound the
    point and the radius. *)
Definition ivec2_of_vec2 (v : vec2) : ivec2 :=
  mkIvec2 (Num.Qtrunc (vx v)) (Num.Qtrunc (vy v)).
Definition ivec2_of_float (s : Q) : ivec2 :=
  mkIvec2 (Num.Qtrunc s) (Num.Qtrunc s).
Definition ivec2_of_int (s : Z) : ivec2 := mkIvec2 s s.

Definition iadd (a b : ivec2) : ivec2 := mkIvec2 (ix a + ix b) (iy a + iy b).
Definition isub (a b : ivec2) : ivec2 := mkIvec2 (ix a - ix b) (iy a - iy b).
Definition imin (a b : ivec2) : ivec2 :=
  mkIvec2 (Z.min (ix a) (ix b)) (Z.min (iy a) (iy b)).
Definition imax (a b : ivec2) : ivec2 :=
  mkIvec2 (Z.max (ix a) (ix b)) (Z.max (iy a) (iy b)).
Definition iabs (a : ivec2) : ivec2 := mkIvec2 (Z.abs (ix a)) (Z.abs (iy a)).

End Glm.

(** The squared Euclidean distance of two points, in the words of the
    specification: no rounding. *)
Definition sqDistance (a b : vec2) : Q :=
  (vx a - vx b) * (vx a - vx b) + (vy a - vy b) * (vy a - vy b).

(* ------------------------------------------------------------------------- *)
(** ** cinder rectangles *)

Module Area.

(** [ci::Area]: a rectangle with integer corners. *)
Record t : Type := mk { x1 : Z; y1 : Z; x2 : Z; y2 : Z }.

Definition getUL (a : t) : ivec2 := mkIvec2 (x1 a) (y1 a).
Definition getLR (a : t) : ivec2 := mkIvec2 (x2 a) (y2 a).
Definition getSize (a : t) : ivec2 := mkIvec2 (x2 a - x1 a) (y2 a - y1 a).

(** [Area::set]: the corners are stored in increasing order. *)
Definition set (ax1 ay1 ax2 ay2 : Z) : t :=
  mk (Z.min ax1 ax2) (Z.min ay1 ay2) (Z.max ax1 ax2) (Z.max ay1 ay2).

End Area.

Module Rectf.

(** [ci::Rectf]: a rectangle with float corners. *)
Record t : Type := mk { x1 : Q; y1 : Q; x2 : Q; y2 : Q }.

(** Modelled from the spec: [Rectf::contains], the containment test of the
    domain (cinder's header is not part of the sources); the borders belong
    to the rectangle. *)
Definition contains (r : t) (p : vec2) : bool :=
  Qle_bool (x1 r) (vx p) && Qle_bool (vx p) (x2 r)
  && Qle_bool (y1 r) (vy p) && Qle_bool (vy p) (y2 r).

(** Modelled from the spec: [Rectf::getCenter], the centre of the domain,
    [( x1 + x2 ) / 2] and [( y1 + y2 ) / 2] on floats. *)
Definition getCenter (r : t) : vec2 :=
  mkVec2 (Num.fdiv (Num.fadd (x1 r) (x2 r)) 2) (Num.fdiv (Num.fadd (y1 r) (y2 r)) 2).

(** Modelled from the spec: [Area( const Rectf & )], the pixel bounds of the
    domain: each corner coordinate is converted to [int]. *)
Definition toArea (r : t) : Area.t :=
  Area.set (Num.Qtrunc (x1 r)) (Num.Qtrunc (y1 r))
           (Num.Qtrunc (x2 r)) (Num.Qtrunc (y2 r)).

End Rectf.

(* ------------------------------------------------------------------------- *)
(** ** The grid *)

Module Grid.

Definition Cell : Type := list vec2.

Record t : Type := mk {
  mGrid : list Cell;
  mNumCells : ivec2;
  mOffset : ivec2;
  mBounds : Area.t;
  mK : Z;
  mCellSize : Z
}.

(** [mGrid[ j ]]; reading outside the vector (undefined behaviour in the
    source) reads an empty cell, see [scanWindow_in_range]. *)
Definition cellAt (g : t) (j : Z) : Cell :=
  if (j <? 0)%Z then [] else nth (Z.to_nat j) (mGrid g) [].

(** [void Grid::resize( uint32_t k )]: the extents are converted to
    [float] and divided by the cell size, the quotients are rounded up; the
    vector gets [mNumCells.x * mNumCells.y] cells, a product of two [int]
    passed as a [size_t]. *)
Definition resize_k (g : t) (k : Z) : t :=
  let cellSize := Num.to_uint32 (Z.shiftl 1 k) in
  let size := Area.getSize (mBounds g) in
  let numCells :=
    mkIvec2 (Qceiling (Num.fdiv (Num.float_of_int (ix size))
                                (Num.float_of_int cellSize)))
            (Qceiling (Num.fdiv (Num.float_of_int (iy size))
                                (Num.float_of_int cellSize))) in
  mk (repeat [] (Z.to_nat (Num.to_size_t
                             (Num.to_int32 (ix numCells * iy numCells)))))
     numCells
     (Glm.iabs (Area.getUL (mBounds g)))
     (mBounds g) k cellSize.

(** [void Grid::resize( const Area &bounds, uint32_t k )] *)
Definition resize (g : t) (bounds : Area.t) (k : Z) : t :=
  resize_k (mk (mGrid g) (mNumCells g) (mOffset g) bounds (mK g) (mCellSize g)) k.

(** [Grid::Grid( const Area &bounds, uint32_t k )] *)
Definition Grid (bounds : Area.t) (k : Z) : t :=
  resize (mk [] (mkIvec2 0 0) (mkIvec2 0 0) (Area.mk 0 0 0 0) 0 0) bounds k.

(** The flat index [j] computed by [Grid::add], an [int] like [x] and
    [y]. *)
Definition cellIndex (g : t) (position : vec2) : Z :=
  let x := Num.to_int32
             (Z.shiftr (Num.to_uint32 (Num.uint32_of_float (vx position) + ix (mOffset g)))
                       (mK g)) in
  let y := Num.to_int32
             (Z.shiftr (Num.to_uint32 (Num.uint32_of_float (vy position) + iy (mOffset g)))
                       (mK g)) in
  Num.to_int32 (x + ix (mNumCells g) * y).

(** [mGrid[j].push_back( position )] *)
Fixpoint push_back_at (j : nat) (position : vec2) (cells : list Cell) : list Cell :=
  match cells with
  | [] => []
  | c :: cells' =>
      match j with
      | O => (c ++ [position]) :: cells'
      | S j' => c :: push_back_at j' position cells'
      end
  end.

(** [void Grid::add( const ci::vec2 &position )]; the comparison
    [j < mGrid.size()] is made on [size_t], so a negative [j] fails it. *)
Definition add (g : t) (position : vec2) : t :=
  let j := cellIndex g position in
  if (Num.to_size_t j <? Z.of_nat (length (mGrid g)))%Z then
    mk (push_back_at (Z.to_nat j) position (mGrid g))
       (mNumCells g) (mOffset g) (mBounds g) (mK g) (mCellSize g)
  else g.

(** The values [lo, lo+1, ...] below [hi] that a [for] loop visits. *)
Definition zrange (lo hi : Z) : list Z :=
  map (fun i => (lo + Z.of_nat i)%Z) (seq 0 (Z.to_nat (hi - lo))).

(** [minCell] and [maxCell] of [Grid::hasNeighbors]. *)
Definition minCell (g : t) (p : vec2) (radius : Q) : ivec2 :=
  let radiusVec := Glm.ivec2_of_float radius in
  let min :=
    Glm.imax (Glm.imin (Glm.isub (Glm.ivec2_of_vec2 p) radiusVec)
                       (Glm.isub (Area.getLR (mBounds g)) (Glm.ivec2_of_int 1)))
             (Area.getUL (mBounds g)) in
  mkIvec2 (Z.shiftr (ix min + ix (mOffset g)) (mK g))
          (Z.shiftr (iy min + iy (mOffset g)) (mK g)).

Definition maxCell (g : t) (p : vec2) (radius : Q) : ivec2 :=
  let radiusVec := Glm.ivec2_of_float radius in
  let max :=
    Glm.imax (Glm.imin (Glm.iadd (Glm.ivec2_of_vec2 p) radiusVec)
                       (Glm.isub (Area.getLR (mBounds g)) (Glm.ivec2_of_int 1)))
             (Area.getUL (mBounds g)) in
  Glm.imin (Glm.iadd (Glm.ivec2_of_int 1)
              (mkIvec2 (Z.shiftr (ix max + ix (mOffset g)) (mK g))
                       (Z.shiftr (iy max + iy (mOffset g)) (mK g))))
           (mNumCells g).

(** The flat indices that the two nested loops of [Grid::hasNeighbors] visit,
    in order; the loop variables are [unsigned]. *)
Definition scanWindow (g : t) (p : vec2) (radius : Q) : list Z :=
  flat_map
    (fun y =>
       map (fun x => Num.to_uint32 (x + ix (mNumCells g) * y))
           (zrange (Num.to_uint32 (ix (minCell g p radius)))
                   (Num.to_uint32 (ix (maxCell g p radius)))))
    (zrange (Num.to_uint32 (iy (minCell g p radius)))
            (Num.to_uint32 (iy (maxCell g p radius)))).

(** [bool Grid::hasNeighbors( const ci::vec2 &p, float radius )]: true at the
    first stored point of a visited cell whose [length2] is below
    [sqRadius]. *)
Definition hasNeighbors (g : t) (p : vec2) (radius : Q) : bool :=
  let sqRadius := Num.fmul radius radius in
  existsb
    (fun j =>
       existsb (fun cell => Num.Qlt_bool (Glm.length2 (Glm.minus p cell)) sqRadius)
               (cellAt g j))
    (scanWindow g p radius).

(** Every point stored in the grid, cell after cell. *)
Definition points (g : t) : list vec2 := concat (mGrid g).


(** The cell of a point in the words of the specification: per axis
    [floor((coordinate + offset) / cellSize)], flattened as
    [x + numCellsX * y]. *)
Definition specCellIndex (g : t) (position : vec2) : Z :=
  let x := Qfloor ((vx position + inject_Z (ix (mOffset g))) / inject_Z (mCellSize g)) in
  let y := Qfloor ((vy position + inject_Z (iy (mOffset g))) / inject_Z (mCellSize g)) in
  (x + ix (mNumCells g) * y)%Z.

End Grid.

(* ------------------------------------------------------------------------- *)
(** ** Collaborators of the samplers *)

(** [cinder/Rand.h]: a generator state [G] threaded through the calls of
    [randInt( a, b )] and [randFloat()]. *)
Class RandomSource (G : Type) : Type := {
  randInt : Z -> Z -> G -> Z * G;
  randFloat : G -> Q * G
}.

(** The contract of [randInt] that the samplers rely on: the value drawn for
    a non-empty range lies in it. *)
Definition randInt_in_range (G : Type) {RS : RandomSource G} : Prop :=
  forall (a b : Z) (g : G), (a <= b)%Z ->
    (a <= fst (randInt a b g) <= b)%Z.
Arguments randInt_in_range G {RS}.

(** [cos] and [sin] on floats. *)
Class Trig : Type := {
  cos : Q -> Q;
  sin : Q -> Q
}.

(** [M_PI] of [math.h]: the double nearest to pi,
    [884279719003555 * 2^-48]. *)
Definition M_PI : Q := 884279719003555 # 281474976710656.

(** What a run of the [while] loop bounded by [fuel] iterations gives: the
    list that the function returns, the state reached when the bound is hit
    first, or a read outside the processing list. *)
Inductive Outcome (St : Type) : Type :=
| Returned (outputList : list vec2)
| OutOfFuel (st : St)
| Fault.
Arguments Returned {St} outputList.
Arguments OutOfFuel {St} st.
Arguments Fault {St}.

(** [processingList.erase( processingList.begin() + i )] *)
Fixpoint erase_nth (i : nat) (l : list vec2) {struct l} : list vec2 :=
  match l with
  | [] => []
  | a :: l' =>
      match i with
      | O => l'
      | S i' => a :: erase_nth i' l'
      end
  end.

(** [center = processingList[ i ]] followed by the erasure of that entry; an
    index outside the vector is undefined behaviour in the source and gives
    no result here ([Fault] in the loops). *)
Definition pick (l : list vec2) (i : Z) : option (vec2 * list vec2) :=
  if ((0 <=? i) && (i <? Z.of_nat (length l)))%Z
  then match nth_error l (Z.to_nat i) with
       | Some center => Some (center, erase_nth (Z.to_nat i) l)
       | None => None
       end
  else None.

Section Sampler.

Context {G : Type} {RS : RandomSource G} {TR : Trig}.

(** The working structures of a run and the state of the random source. *)
Record State : Type := mkState {
  processingList : list vec2;
  outputList : list vec2;
  grid : Grid.t;
  rng : G
}.

Definition with_rng (st : State) (g : G) : State :=
  mkState (processingList st) (outputList st) (grid st) g.

(** The three statements that add a point to the processing list, to the
    output list and to the grid. *)
Definition accept (p : vec2) (st : State) : State :=
  mkState (processingList st ++ [p]) (outputList st ++ [p])
          (Grid.add (grid st) p) (rng st).

(** The part shared, statement for statement, by the three functions: the
    grid, the initial points, and the centre when there is no initial
    point. *)
Definition initialise (bounds : Rectf.t) (initialSet : list vec2) (g : G) : State :=
  let st0 := mkState [] [] (Grid.Grid (Rectf.toArea bounds) 3) g in
  let st1 := fold_left (fun st p => accept p st) initialSet st0 in
  match processingList st1 with
  | [] => accept (Rectf.getCenter bounds) st1
  | _ :: _ => st1
  end.

(** [newPoint] of one round of the [for] loop, from the two draws.  The
    radius is computed on floats; the angle is computed on doubles, as
    [M_PI] is one, and stored in a [float]; the vector takes the values of
    [cos] and [sin] as floats. *)
Definition candidate (center : vec2) (dist u1 u2 : Q) : vec2 :=
  let randRadius := Num.fmul dist (Num.fadd 1 u1) in
  let randAngle := Num.fl32 (Num.fl64 (Num.fl64 (u2 * M_PI) * 2)) in
  Glm.plus center
           (Glm.times (mkVec2 (Num.fl32 (cos randAngle)) (Num.fl32 (sin randAngle)))
                      randRadius).

(** *** [poissonDiskDistribution( float separation, ... )] *)

Fixpoint spawn (n : nat) (separation : Q) (bounds : Rectf.t)
         (center : vec2) (st : State) : State :=
  match n with
  | O => st
  | S n' =>
      let (u1, g1) := randFloat (rng st) in
      let (u2, g2) := randFloat g1 in
      let newPoint := candidate center separation u1 u2 in
      let st' := with_rng st g2 in
      spawn n' separation bounds center
        (if Rectf.contains bounds newPoint
            && negb (Grid.hasNeighbors (grid st) newPoint separation)
         then accept newPoint st' else st')
  end.

Fixpoint loop (fuel : nat) (separation : Q) (bounds : Rectf.t) (k : Z)
         (st : State) : Outcome State :=
  match processingList st with
  | [] => Returned (outputList st)
  | _ :: _ =>
      match fuel with
      | O => OutOfFuel st
      | S fuel' =>
          let (randPoint, g1) :=
            randInt 0 (Z.of_nat (length (processingList st)) - 1) (rng st) in
          match pick (processingList st) randPoint with
          | None => Fault
          | Some (center, rest) =>
              loop fuel' separation bounds k
                (spawn (Z.to_nat k) separation bounds center
                   (mkState rest (outputList st) (grid st) g1))
          end
      end
  end.

Definition poissonDiskDistribution (separation : Q) (bounds : Rectf.t)
           (initialSet : list vec2) (k : Z) (g : G) (fuel : nat) : Outcome State :=
  loop fuel separation bounds k (initialise bounds initialSet g).

(** *** [poissonDiskDistribution( distFunction, bounds, ... )] *)

Fixpoint spawn_dist (n : nat) (dist : Q) (bounds : Rectf.t)
         (center : vec2) (st : State) : State :=
  match n with
  | O => st
  | S n' =>
      let (u1, g1) := randFloat (rng st) in
      let (u2, g2) := randFloat g1 in
      let newPoint := candidate center dist u1 u2 in
      let st' := with_rng st g2 in
      spawn_dist n' dist bounds center
        (if Rectf.contains bounds newPoint
            && negb (Grid.hasNeighbors (grid st) newPoint dist)
         then accept newPoint st' else st')
  end.

Fixpoint loop_dist (fuel : nat) (distFunction : vec2 -> Q) (bounds : Rectf.t)
         (k : Z) (st : State) : Outcome State :=
  match processingList st with
  | [] => Returned (outputList st)
  | _ :: _ =>
      match fuel with
      | O => OutOfFuel st
      | S fuel' =>
          let (randPoint, g1) :=
            randInt 0 (Z.of_nat (length (processingList st)) - 1) (rng st) in
          match pick (processingList st) randPoint with
          | None => Fault
          | Some (center, rest) =>
              let dist := distFunction center in
              loop_dist fuel' distFunction bounds k
                (spawn_dist (Z.to_nat k) dist bounds center
                   (mkState rest (outputList st) (grid st) g1))
          end
      end
  end.

Definition poissonDiskDistribution_dist (distFunction : vec2 -> Q)
           (bounds : Rectf.t) (initialSet : list vec2) (k : Z) (g : G)
           (fuel : nat) : Outcome State :=
  loop_dist fuel distFunction bounds k (initialise bounds initialSet g).

(** *** [poissonDiskDistribution( distFunction, boundsFunction, bounds, ... )] *)

Fixpoint spawn_bounds (n : nat) (dist : Q) (boundsFunction : vec2 -> bool)
         (bounds : Rectf.t) (center : vec2) (st : State) : State :=
  match n with
  | O => st
  | S n' =>
      let (u1, g1) := randFloat (rng st) in
      let (u2, g2) := randFloat g1 in
      let newPoint := candidate center dist u1 u2 in
      let st' := with_rng st g2 in
      spawn_bounds n' dist boundsFunction bounds center
        (if Rectf.contains bounds newPoint
            && boundsFunction newPoint
            && negb (Grid.hasNeighbors (grid st) newPoint dist)
         then accept newPoint st' else st')
  end.

Fixpoint loop_bounds (fuel : nat) (distFunction : vec2 -> Q)
         (boundsFunction : vec2 -> bool) (bounds : Rectf.t)
         (k : Z) (st : State) : Outcome State :=
  match processingList st with
  | [] => Returned (outputList st)
  | _ :: _ =>
      match fuel with
      | O => OutOfFuel st
      | S fuel' =>
          let (randPoint, g1) :=
            randInt 0 (Z.of_nat (length (processingList st)) - 1) (rng st) in
          match pick (processingList st) randPoint with
          | None => Fault
          | Some (center, rest) =>
              let dist := distFunction center in
              loop_bounds fuel' distFunction boundsFunction bounds k
                (spawn_bounds (Z.to_nat k) dist boundsFunction bounds center
                   (mkState rest (outputList st) (grid st) g1))
          end
      end
  end.

Definition poissonDiskDistribution_bounds (distFunction : vec2 -> Q)
           (boundsFunction : vec2 -> bool) (bounds : Rectf.t)
           (initialSet : list vec2) (k : Z) (g : G) (fuel : nat) : Outcome State :=
  loop_bounds fuel distFunction boundsFunction bounds k
              (initialise bounds initialSet g).

(** *** The three entry points under one name *)

Inductive Variant : Type :=
| ConstantSeparation (separation : Q)
| DistFunction (distFunction : vec2 -> Q)
| DistBoundsFunction (distFunction : vec2 -> Q) (boundsFunction : vec2 -> bool).

Definition run (v : Variant) (bounds : Rectf.t) (initialSet : list vec2)
           (k : Z) (g : G) (fuel : nat) : Outcome State :=
  match v with
  | ConstantSeparation separation =>
      poissonDiskDistribution separation bounds initialSet k g fuel
  | DistFunction distFunction =>
      poissonDiskDistribution_dist distFunction bounds initialSet k g fuel
  | DistBoundsFunction distFunction boundsFunction =>
      poissonDiskDistribution_bounds distFunction boundsFunction bounds initialSet k g fuel
  end.

(** The minimum separation in force around a parent point, and the
    admissibility test on a candidate, of each entry point. *)
Definition separationAt (v : Variant) : vec2 -> Q :=
  match v with
  | ConstantSeparation separation => fun _ => separation
  | DistFunction distFunction => distFunction
  | DistBoundsFunction distFunction _ => distFunction
  end.

Definition admissible (v : Variant) : vec2 -> bool :=
  match v with
  | DistBoundsFunction _ boundsFunction => boundsFunction
  | _ => fun _ => true
  end.

(** The output list when the loop is entered: [initialSet], or the centre
    of the domain alone. *)
Definition seeds (bounds : Rectf.t) (initialSet : list vec2) : list vec2 :=
  match initialSet with
  | [] => [Rectf.getCenter bounds]
  | _ :: _ => initialSet
  end.

(** The output list that a bounded run has built: the returned list, or the
    list at the moment the fuel ran out. *)
Definition produced (o : Outcome State) : option (list vec2) :=
  match o with
  | Returned out => Some out
  | OutOfFuel st => Some (outputList st)
  | Fault => None
  end.

(** The grid after the points of [l] were added in order. *)
Definition gridOf (bounds : Rectf.t) (l : list vec2) : Grid.t :=
  fold_left Grid.add l (Grid.Grid (Rectf.toArea bounds) 3).

(** The candidate of [parent] that the [for] loop computes when the random
    source is in the state [ga]: two draws of [randFloat], one after the
    other. *)
Definition candidateAt (distFunction : vec2 -> Q) (parent : vec2) (ga : G) : vec2 :=
  candidate parent (distFunction parent)
            (fst (randFloat ga)) (fst (randFloat (snd (randFloat ga)))).

(** Where a generated point [q] comes from, when the output list is [pre]:
    it is the candidate of some earlier output point, its parent, and it
    passed the test that the [for] loop makes before it keeps a
    candidate. *)
Definition Accepted (distFunction : vec2 -> Q) (boundsFunction : vec2 -> bool)
           (bounds : Rectf.t) (pre : list vec2) (q : vec2) : Prop :=
  Rectf.contains bounds q = true
  /\ boundsFunction q = true
  /\ exists (parent : vec2) (ga : G),
       In parent pre
       /\ q = candidateAt distFunction parent ga
       /\ Grid.hasNeighbors (gridOf bounds pre) q (distFunction parent) = false.

(** Every entry of [out] after the first [n] passed the test. *)
Definition AllAccepted (distFunction : vec2 -> Q) (boundsFunction : vec2 -> bool)
           (bounds : Rectf.t) (n : nat) (out : list vec2) : Prop :=
  forall pre q post,
    out = pre ++ q :: post -> (n <= length pre)%nat ->
    Accepted distFunction boundsFunction bounds pre q.

(** A domain with origin [(0,0)] whose integer extents are below 65536 and
    are not multiples of the cell size 8. *)
Definition regularDomain (bounds : Rectf.t) : Prop :=
  Rectf.x1 bounds = 0 /\ Rectf.y1 bounds = 0
  /\ 0 <= Rectf.x2 bounds /\ 0 <= Rectf.y2 bounds
  /\ (Num.Qtrunc (Rectf.x2 bounds) < 65536)%Z
  /\ (Num.Qtrunc (Rectf.y2 bounds) < 65536)%Z
  /\ (Num.Qtrunc (Rectf.x2 bounds) mod 8 <> 0)%Z
  /\ (Num.Qtrunc (Rectf.y2 bounds) mod 8 <> 0)%Z.


(** A separation that is a non-negative whole number. *)
Definition wholeSeparation (d : Q) : Prop :=
  0 <= d /\ d == inject_Z (Num.Qtrunc d).

(** The pixel of a point of non-negative coordinates, and the pixels
    [0..w] x [0..h]. *)
Definition pixel (p : vec2) : Z * Z := (Qfloor (vx p), Qfloor (vy p)).

Definition pixels (w h : Z) : list (Z * Z) :=
  list_prod (Grid.zrange 0 (w + 1)) (Grid.zrange 0 (h + 1)).

(** The invariant of the [while] loop. *)
Definition Invariant (distFunction : vec2 -> Q) (boundsFunction : vec2 -> bool)
           (bounds : Rectf.t) (seedList : list vec2) (st : State) : Prop :=
  (exists gen, outputList st = seedList ++ gen)
  /\ grid st = gridOf bounds (outputList st)
  /\ incl (processingList st) (outputList st)
  /\ AllAccepted distFunction boundsFunction bounds (length seedList) (outputList st).

End Sampler.

Arguments State G : clear implicits.

(* ------------------------------------------------------------------------- *)
(** ** A scripted random source, for concrete runs *)

Module Script.

(** The stream of raw 32-bit values that the generator will give; an
    exhausted script gives zeros. *)
Definition t : Type := list Z.

Definition next (g : t) : Z * t :=
  match g with
  | [] => (0%Z, [])
  | raw :: g' => (Num.to_uint32 raw, g')
  end.

(** cinder's [randInt( a, b )] is [a + randInt( b - a )], and [randInt( v )]
    is [0] when [v <= 0] and [raw % v] otherwise. *)
Definition script_randInt (a b : Z) (g : t) : Z * t :=
  if (b - a <=? 0)%Z then (a, g)
  else let (raw, g') := next g in ((a + raw mod (b - a))%Z, g').

(** [randFloat()]: the 24 leading bits of the raw value, scaled to
    [[0,1)]. *)
Definition script_randFloat (g : t) : Q * t :=
  let (raw, g') := next g in (Qred (Z.shiftr raw 8 # 16777216), g').

Definition source : RandomSource t :=
  {| randInt := script_randInt; randFloat := script_randFloat |}.

(** Cosine and sine, exact at the angle [0] that the concrete runs use and
    their Taylor polynomials elsewhere. *)
Definition script_cos (a : Q) : Q :=
  if Qeq_bool a 0 then 1 else 1 - a * a / 2 + a * a * a * a / 24.
Definition script_sin (a : Q) : Q :=
  if Qeq_bool a 0 then 0 else a - a * a * a / 6.

Definition trig : Trig := {| cos := script_cos; sin := script_sin |}.

(** The raw value behind the draw [1/2]. *)
Definition half : Z := 2147483648.

(** The entry points and [run] on the scripted collaborators. *)
Definition sampler := @poissonDiskDistribution t source trig.
Definition sampler_bounds := @poissonDiskDistribution_bounds t source trig.
Definition scripted := @run t source trig.

(** The domains, the script and the points of the concrete runs. *)
Definition square100 : Rectf.t := Rectf.mk 0 0 100 100.
Definition strip94 : Rectf.t := Rectf.mk 0 0 94 100.
Definition strip30 : Rectf.t := Rectf.mk 0 0 30 100.
Definition script8 : t := [0; 0; 0; 0; half; 0; half; 0]%Z.
Definition p70 : vec2 := mkVec2 70 50.
Definition p80 : vec2 := mkVec2 80 50.
Definition p90 : vec2 := mkVec2 90 50.

(** The same points with each coordinate in lowest terms. *)
Definition reduced (l : list vec2) : list vec2 :=
  map (fun p => mkVec2 (Qred (vx p)) (Qred (vy p))) l.

End Script.

(* ------------------------------------------------------------------------- *)
(** ** Facts on the rounding *)

Module RoundFacts.

Import Num.

Lemma two_neq_0 : ~ 2 == 0.
Proof. discriminate. Qed.

Lemma pow2_pos (z : Z) : 0 < 2 ^ z.
Proof. apply Qpower_0_lt. reflexivity. Qed.

Lemma pow2_add (a b : Z) : 2 ^ (a + b) == 2 ^ a * 2 ^ b.
Proof. apply Qpower_plus. exact two_neq_0. Qed.

Lemma pow2_le (a b : Z) : (a <= b)%Z -> 2 ^ a <= 2 ^ b.
Proof. intro H. apply Qpower_le_compat_l; [exact H | discriminate]. Qed.

Lemma pow2_lt (a b : Z) : (a < b)%Z -> 2 ^ a < 2 ^ b.
Proof. intro H. apply Qpower_lt_compat_l; [exact H | reflexivity]. Qed.

Lemma pow2_lt_inv (a b : Z) : 2 ^ a < 2 ^ b -> (a < b)%Z.
Proof. intro H. apply Qpower_lt_compat_l_inv with (q := 2); [exact H | reflexivity]. Qed.

Lemma pow2_cancel (a : Z) : 2 ^ a * 2 ^ (- a) == 1.
Proof. rewrite <- pow2_add. replace (a + - a)%Z with 0%Z by lia. reflexivity. Qed.

Lemma Qmult_le_l_weak (x y z : Q) : 0 <= z -> x <= y -> z * x <= z * y.
Proof. intros Hz H. nra. Qed.

Lemma pow2_Z (n : Z) : (0 <= n)%Z -> 2 ^ n == inject_Z (2 ^ n).
Proof. intro H. rewrite Zpower_Qpower by exact H. reflexivity. Qed.


(** *** floor of the binary logarithm *)

Lemma ilog2_spec (x : Q) : 0 < x -> 2 ^ ilog2 x <= x /\ x < 2 ^ (ilog2 x + 1).
Proof.
  intro Hx. destruct x as [n d]. unfold Qlt in Hx. simpl in Hx.
  assert (Hn : (0 < n)%Z) by lia.
  unfold ilog2. cbn [Qnum Qden].
  pose proof (Z.log2_spec n Hn) as [A1 A2].
  pose proof (Z.log2_spec (Zpos d) ltac:(lia)) as [B1 B2].
  pose proof (Z.log2_nonneg n) as A0. pose proof (Z.log2_nonneg (Zpos d)) as B0.
  set (a := Z.log2 n) in *. set (b := Z.log2 (Zpos d)) in *.
  assert (Ea : 2 ^ a == inject_Z (2 ^ a)) by (apply pow2_Z; lia).
  assert (Ea1 : 2 ^ (a + 1) == inject_Z (2 ^ (a + 1))) by (apply pow2_Z; lia).
  assert (Eb : 2 ^ b == inject_Z (2 ^ b)) by (apply pow2_Z; lia).
  assert (Eb1 : 2 ^ (b + 1) == inject_Z (2 ^ (b + 1))) by (apply pow2_Z; lia).
  assert (Pb : 0 < 2 ^ b) by apply pow2_pos.
  assert (Pb1 : 0 < 2 ^ (b + 1)) by apply pow2_pos.
  assert (Ex : n # d == inject_Z n / inject_Z (Zpos d)) by apply Qmake_Qdiv.
  assert (Pd : 0 < inject_Z (Zpos d)) by reflexivity.
  rewrite <- Z.add_1_r in A2, B2.
  assert (Px : 0 <= inject_Z n / inject_Z (Zpos d)).
  { apply Qle_shift_div_l; [exact Pd|]. rewrite Qmult_0_l.
    unfold Qle. simpl. lia. }
  assert (Exd : inject_Z n / inject_Z (Zpos d) * inject_Z (Zpos d) == inject_Z n)
    by (field; discriminate).
  assert (U : n # d < 2 ^ (a - b + 1)).
  { replace (a - b + 1)%Z with ((a + 1) - b)%Z by lia.
    rewrite Qpower_minus by exact two_neq_0.
    rewrite Ex. apply Qlt_shift_div_l; [exact Pb|].
    apply Qle_lt_trans with (inject_Z n).
    - rewrite <- Exd at 2. apply Qmult_le_l_weak; [exact Px|].
      rewrite Eb, <- Zle_Qle. exact B1.
    - rewrite Ea1, <- Zlt_Qlt. exact A2. }
  assert (L : 2 ^ (a - b - 1) <= n # d).
  { replace (a - b - 1)%Z with (a - (b + 1))%Z by lia.
    rewrite Qpower_minus by exact two_neq_0.
    rewrite Ex. apply Qle_shift_div_r; [exact Pb1|].
    apply Qle_trans with (inject_Z n).
    - rewrite Ea, <- Zle_Qle. exact A1.
    - rewrite <- Exd at 1. apply Qmult_le_l_weak; [exact Px|].
      rewrite Eb1, <- Zle_Qle. lia. }
  destruct (Qle_bool (2 ^ (a - b)) (n # d)) eqn:E.
  - apply Qle_bool_iff in E. split; assumption.
  - split; [exact L|].
    replace (a - b - 1 + 1)%Z with (a - b)%Z by lia.
    apply Qnot_le_lt. intro H. apply Qle_bool_iff in H. congruence.
Qed.

Lemma ilog2_unique (x : Q) (l : Z) :
  2 ^ l <= x -> x < 2 ^ (l + 1) -> ilog2 x = l.
Proof.
  intros H1 H2.
  assert (Hx : 0 < x) by (eapply Qlt_le_trans; [apply (pow2_pos l) | exact H1]).
  destruct (ilog2_spec Hx) as [S1 S2].
  assert (A : (l < ilog2 x + 1)%Z).
  { apply pow2_lt_inv. eapply Qle_lt_trans; [exact H1 | exact S2]. }
  assert (B : (ilog2 x < l + 1)%Z).
  { apply pow2_lt_inv. eapply Qle_lt_trans; [exact S1 | exact H2]. }
  lia.
Qed.

Lemma ilog2_comp (x y : Q) : 0 < x -> x == y -> ilog2 x = ilog2 y.
Proof.
  intros Hx E. destruct (ilog2_spec Hx) as [S1 S2].
  symmetry. apply ilog2_unique; rewrite <- E; assumption.
Qed.

Lemma ilog2_mono (x y : Q) : 0 < x -> x <= y -> (ilog2 x <= ilog2 y)%Z.
Proof.
  intros Hx Hxy.
  assert (Hy : 0 < y) by (eapply Qlt_le_trans; eassumption).
  destruct (ilog2_spec Hx) as [S1 _]. destruct (ilog2_spec Hy) as [_ T2].
  assert (A : (ilog2 x < ilog2 y + 1)%Z).
  { apply pow2_lt_inv. eapply Qle_lt_trans; [exact S1|].
    eapply Qle_lt_trans; [exact Hxy | exact T2]. }
  lia.
Qed.

(** *** rounding to the nearest integer, ties to even *)

Ltac compared C :=
  match type of C with
  | _ = Eq => apply (proj2 (Qeq_alt _ _)) in C
  | _ = Lt => apply (proj2 (Qlt_alt _ _)) in C
  | _ = Gt => apply (proj2 (Qgt_alt _ _)) in C
  end.

Lemma rne_comp (p q : Q) : p == q -> rne p = rne q.
Proof.
  intro E. unfold rne. rewrite (Qfloor_comp _ _ E).
  assert (C : Qcompare (p - inject_Z (Qfloor q)) (1 # 2)
              = Qcompare (q - inject_Z (Qfloor q)) (1 # 2)).
  { apply Qcompare_comp; [rewrite E; reflexivity | reflexivity]. }
  rewrite C. reflexivity.
Qed.

Lemma rne_bounds (q : Q) :
  (Qfloor q <= rne q <= Qfloor q + 1)%Z
  /\ q - (1 # 2) <= inject_Z (rne q) /\ inject_Z (rne q) <= q + (1 # 2).
Proof.
  pose proof (Qfloor_le q) as L. pose proof (Qlt_floor q) as U.
  rewrite inject_Z_plus in U. change (inject_Z 1) with 1 in U.
  unfold rne.
  destruct (Qcompare (q - inject_Z (Qfloor q)) (1 # 2)) eqn:C.
  - apply Qeq_alt in C.
    destruct (Z.even (Qfloor q)).
    + split; [lia|]. split; lra.
    + split; [lia|]. rewrite inject_Z_plus. change (inject_Z 1) with 1. split; lra.
  - apply Qlt_alt in C. split; [lia|]. split; lra.
  - apply Qgt_alt in C. split; [lia|].
    rewrite inject_Z_plus. change (inject_Z 1) with 1. split; lra.
Qed.

Lemma rne_Z (n : Z) : rne (inject_Z n) = n.
Proof.
  unfold rne. rewrite Qfloor_Z.
  assert (C : Qcompare (inject_Z n - inject_Z n) (1 # 2) = Lt).
  { apply (proj1 (Qlt_alt _ _)).
    setoid_replace (inject_Z n - inject_Z n) with 0 by ring. reflexivity. }
  rewrite C. reflexivity.
Qed.

Lemma rne_le (q : Q) (n : Z) : q <= inject_Z n -> (rne q <= n)%Z.
Proof.
  intro H. destruct (rne_bounds q) as ((B1 & B2) & _).
  pose proof (Qfloor_le q) as L.
  assert (F : (Qfloor q <= n)%Z).
  { rewrite Zle_Qle. lra. }
  destruct (Z.eq_dec (Qfloor q) n) as [E|E]; [|lia].
  assert (Eq : q == inject_Z n) by (rewrite <- E in *; lra).
  rewrite (rne_comp Eq), rne_Z. lia.
Qed.

Lemma rne_ge (q : Q) (n : Z) : inject_Z n <= q -> (n <= rne q)%Z.
Proof.
  intro H. destruct (rne_bounds q) as ((B1 & _) & _).
  assert (F : (n <= Qfloor q)%Z).
  { rewrite <- (Qfloor_Z n). apply Qfloor_resp_le. exact H. }
  lia.
Qed.

Lemma rne_mono (p q : Q) : p <= q -> (rne p <= rne q)%Z.
Proof.
  intro H.
  pose proof (Qfloor_resp_le _ _ H) as F.
  destruct (rne_bounds p) as ((P1 & P2) & _).
  destruct (rne_bounds q) as ((Q1 & Q2) & _).
  destruct (Z.eq_dec (Qfloor p) (Qfloor q)) as [E|E]; [|lia].
  unfold rne. rewrite E.
  destruct (Qcompare (p - inject_Z (Qfloor q)) (1 # 2)) eqn:C1;
    destruct (Qcompare (q - inject_Z (Qfloor q)) (1 # 2)) eqn:C2;
    compared C1; compared C2;
    try (destruct (Z.even (Qfloor q))); try lia; exfalso; lra.
Qed.


(** *** rounding to a binary format *)

Section Format.

Variables prec emin : Z.
Hypothesis Hprec : (1 <= prec)%Z.

Let fexp (x : Q) : Z := Z.max (ilog2 x - (prec - 1)) emin.

Lemma round_pos_comp (x y : Q) :
  0 < x -> x == y -> round_pos prec emin x == round_pos prec emin y.
Proof.
  intros Hx E. unfold round_pos. rewrite <- (ilog2_comp Hx E).
  assert (R : rne (x * 2 ^ (- Z.max (ilog2 x - (prec - 1)) emin))
              = rne (y * 2 ^ (- Z.max (ilog2 x - (prec - 1)) emin))).
  { apply rne_comp. apply Qmult_comp; [exact E | reflexivity]. }
  rewrite R. reflexivity.
Qed.

Lemma scaled_le (x : Q) (l e : Z) : x <= 2 ^ l -> x * 2 ^ (- e) <= 2 ^ (l - e).
Proof.
  intro H. unfold Z.sub. rewrite pow2_add.
  pose proof (pow2_pos (- e)). nra.
Qed.

Lemma scaled_ge (x : Q) (l e : Z) : 2 ^ l <= x -> 2 ^ (l - e) <= x * 2 ^ (- e).
Proof.
  intro H. unfold Z.sub. rewrite pow2_add.
  pose proof (pow2_pos (- e)). nra.
Qed.

Lemma unscale (n : Z) (e : Z) (b : Q) :
  inject_Z n * 2 ^ e == b <-> inject_Z n == b * 2 ^ (- e).
Proof.
  pose proof (pow2_cancel e) as C. split; intro H.
  - rewrite <- H. rewrite <- Qmult_assoc, C. ring.
  - rewrite H. rewrite <- Qmult_assoc, (Qmult_comm (2 ^ (- e))), C. ring.
Qed.

Lemma round_pos_nonneg (x : Q) : 0 < x -> 0 <= round_pos prec emin x.
Proof.
  intro Hx. unfold round_pos.
  pose proof (pow2_pos (Z.max (ilog2 x - (prec - 1)) emin)) as P.
  pose proof (pow2_pos (- Z.max (ilog2 x - (prec - 1)) emin)) as P'.
  assert (H : (0 <= rne (x * 2 ^ (- Z.max (ilog2 x - (prec - 1)) emin)))%Z).
  { apply rne_ge. change (inject_Z 0) with 0. nra. }
  rewrite Zle_Qle in H. change (inject_Z 0) with 0 in H. nra.
Qed.

(** A power of two that is a multiple of the unit of [x] bounds the rounded
    value as it bounds [x]. *)
Lemma round_pos_le_pow2 (x : Q) (l : Z) :
  0 < x -> x <= 2 ^ l -> (fexp x <= l)%Z -> round_pos prec emin x <= 2 ^ l.
Proof.
  intros Hx H Hl. unfold round_pos. fold (fexp x).
  assert (R : (rne (x * 2 ^ (- fexp x)) <= 2 ^ (l - fexp x))%Z).
  { apply rne_le. rewrite <- pow2_Z by lia. apply scaled_le. exact H. }
  rewrite Zle_Qle, <- pow2_Z in R by lia.
  pose proof (pow2_pos (fexp x)) as P.
  setoid_replace (2 ^ l) with (2 ^ (l - fexp x) * 2 ^ fexp x).
  - nra.
  - rewrite <- pow2_add. replace (l - fexp x + fexp x)%Z with l by lia. reflexivity.
Qed.

Lemma round_pos_ge_pow2 (x : Q) (l : Z) :
  0 < x -> 2 ^ l <= x -> (fexp x <= l)%Z -> 2 ^ l <= round_pos prec emin x.
Proof.
  intros Hx H Hl. unfold round_pos. fold (fexp x).
  assert (R : (2 ^ (l - fexp x) <= rne (x * 2 ^ (- fexp x)))%Z).
  { apply rne_ge. rewrite <- pow2_Z by lia. apply scaled_ge. exact H. }
  rewrite Zle_Qle, <- pow2_Z in R by lia.
  pose proof (pow2_pos (fexp x)) as P.
  setoid_replace (2 ^ l) with (2 ^ (l - fexp x) * 2 ^ fexp x).
  - nra.
  - rewrite <- pow2_add. replace (l - fexp x + fexp x)%Z with l by lia. reflexivity.
Qed.

Lemma round_pos_mono (x y : Q) :
  0 < x -> x <= y -> round_pos prec emin x <= round_pos prec emin y.
Proof.
  intros Hx Hxy.
  assert (Hy : 0 < y) by (eapply Qlt_le_trans; eassumption).
  pose proof (ilog2_mono Hx Hxy) as Hl.
  destruct (ilog2_spec Hx) as [X1 X2]. destruct (ilog2_spec Hy) as [Y1 Y2].
  destruct (Z.eq_dec (fexp x) (fexp y)) as [E|E].
  - unfold round_pos. fold (fexp x) (fexp y). rewrite E.
    pose proof (pow2_pos (fexp y)) as P. pose proof (pow2_pos (- fexp y)) as P'.
    assert (R : (rne (x * 2 ^ (- fexp y)) <= rne (y * 2 ^ (- fexp y)))%Z).
    { apply rne_mono. nra. }
    rewrite Zle_Qle in R. nra.
  - assert (Hlt : (ilog2 x < ilog2 y)%Z) by (unfold fexp in E; lia).
    apply Qle_trans with (2 ^ ilog2 y).
    + apply round_pos_le_pow2; [exact Hx | | unfold fexp in *; lia].
      apply Qlt_le_weak. eapply Qlt_le_trans; [exact X2|].
      apply pow2_le. lia.
    + apply round_pos_ge_pow2; [exact Hy | exact Y1 | unfold fexp in *; lia].
Qed.

(** The rounded value of [x] is [x] when [x] is a multiple of its unit. *)
Lemma round_pos_exact (x : Q) (n : Z) :
  x * 2 ^ (- fexp x) == inject_Z n -> round_pos prec emin x == x.
Proof.
  intro H. unfold round_pos. fold (fexp x).
  rewrite (rne_comp H), rne_Z. apply unscale. symmetry. exact H.
Qed.

Lemma ilog2_scaled (m e : Z) :
  (0 < m)%Z -> ilog2 (inject_Z m * 2 ^ e) = (ilog2 (inject_Z m) + e)%Z.
Proof.
  intro Hm.
  assert (Hq : 0 < inject_Z m) by (rewrite Zlt_Qlt in Hm; exact Hm).
  destruct (ilog2_spec Hq) as [S1 S2].
  pose proof (pow2_pos e) as P.
  apply ilog2_unique.
  - rewrite pow2_add. nra.
  - replace (ilog2 (inject_Z m) + e + 1)%Z with ((ilog2 (inject_Z m) + 1) + e)%Z by lia.
    rewrite pow2_add. nra.
Qed.

(** The numbers of the format: [m * 2^e] with a mantissa of [prec] bits. *)
Lemma round_pos_generic (m e : Z) :
  (0 < m <= 2 ^ prec)%Z -> (emin <= e)%Z ->
  round_pos prec emin (inject_Z m * 2 ^ e) == inject_Z m * 2 ^ e.
Proof.
  intros [Hm Hmp] He.
  assert (Hq : 0 < inject_Z m) by (rewrite Zlt_Qlt in Hm; exact Hm).
  destruct (ilog2_spec Hq) as [S1 S2].
  pose proof (ilog2_scaled e Hm) as El.
  destruct (Z.eq_dec m (2 ^ prec)) as [Em|Em].
  - (* the mantissa is 2^prec: the unit is 2^(e+1) *)
    assert (Lm : ilog2 (inject_Z m) = prec).
    { apply ilog2_unique; rewrite Em, <- pow2_Z by lia.
      - apply Qle_refl.
      - apply pow2_lt. lia. }
    apply round_pos_exact with (n := (2 ^ (prec - 1))%Z).
    unfold fexp. rewrite El, Lm.
    replace (Z.max (prec + e - (prec - 1)) emin) with (e + 1)%Z by lia.
    rewrite Em, <- !pow2_Z by lia.
    rewrite <- !pow2_add. replace (prec + e + - (e + 1))%Z with (prec - 1)%Z by lia.
    reflexivity.
  - assert (Lm : (ilog2 (inject_Z m) <= prec - 1)%Z).
    { assert (ilog2 (inject_Z m) < prec)%Z; [|lia].
      apply pow2_lt_inv. eapply Qle_lt_trans; [exact S1|].
      rewrite pow2_Z by lia. rewrite <- Zlt_Qlt. lia. }
    apply round_pos_exact with (n := (m * 2 ^ (e - fexp (inject_Z m * 2 ^ e)))%Z).
    assert (Hf : (fexp (inject_Z m * 2 ^ e) <= e)%Z) by (unfold fexp; lia).
    rewrite inject_Z_mult, <- pow2_Z by lia.
    unfold Z.sub. rewrite pow2_add. ring.
Qed.

Lemma round_pos_format (x : Q) :
  0 < x ->
  exists m, (0 <= m <= 2 ^ prec)%Z
            /\ round_pos prec emin x = inject_Z m * 2 ^ fexp x.
Proof.
  intro Hx. exists (rne (x * 2 ^ (- fexp x))). split; [|reflexivity].
  destruct (ilog2_spec Hx) as [S1 S2].
  pose proof (pow2_pos (- fexp x)) as P'.
  split.
  - apply rne_ge. change (inject_Z 0) with 0. nra.
  - apply rne_le. rewrite <- pow2_Z by lia.
    apply Qle_trans with (2 ^ (ilog2 x + 1 - fexp x)).
    + apply scaled_le. apply Qlt_le_weak. exact S2.
    + apply pow2_le. unfold fexp. lia.
Qed.

(** *** [round] *)

Lemma Qnum_pos (x : Q) : 0 < x <-> (0 < Qnum x)%Z.
Proof. unfold Qlt. simpl. lia. Qed.

Lemma Qnum_neg (x : Q) : x < 0 <-> (Qnum x < 0)%Z.
Proof. unfold Qlt. simpl. lia. Qed.

Lemma round_pos_eq (x : Q) : 0 < x -> round prec emin x == round_pos prec emin x.
Proof.
  intro Hx. apply Qnum_pos in Hx. unfold round.
  destruct (Qnum x); try lia. apply Qred_correct.
Qed.

Lemma round_neg_eq (x : Q) :
  x < 0 -> round prec emin x == - round_pos prec emin (- x).
Proof.
  intro Hx. apply Qnum_neg in Hx. unfold round.
  destruct (Qnum x); try lia. apply Qred_correct.
Qed.

Lemma round_zero_eq (x : Q) : x == 0 -> round prec emin x = 0.
Proof.
  intro Hx. unfold round. unfold Qeq in Hx. simpl in Hx.
  replace (Qnum x) with 0%Z by lia. reflexivity.
Qed.

(** Equal floats round to the same value, in lowest terms. *)
Lemma round_comp (x y : Q) : x == y -> round prec emin x = round prec emin y.
Proof.
  intro E.
  destruct (Q_dec x 0) as [[Hx|Hx]|Hx].
  - assert (Hy : y < 0) by (rewrite <- E; exact Hx).
    pose proof (proj1 (Qnum_neg x) Hx). pose proof (proj1 (Qnum_neg y) Hy).
    unfold round. destruct (Qnum x); try lia. destruct (Qnum y); try lia.
    apply Qred_complete.
    assert (Hx' : 0 < - x) by lra.
    rewrite (round_pos_comp Hx' (y := - y)); [reflexivity|].
    rewrite E. reflexivity.
  - assert (Hy : 0 < y) by (rewrite <- E; exact Hx).
    pose proof (proj1 (Qnum_pos x) Hx). pose proof (proj1 (Qnum_pos y) Hy).
    unfold round. destruct (Qnum x); try lia. destruct (Qnum y); try lia.
    apply Qred_complete. apply round_pos_comp; assumption.
  - rewrite (round_zero_eq Hx). symmetry. apply round_zero_eq.
    rewrite <- E. exact Hx.
Qed.

Lemma round_opp (x : Q) : round prec emin (- x) == - round prec emin x.
Proof.
  destruct (Q_dec x 0) as [[Hx|Hx]|Hx].
  - rewrite (round_neg_eq Hx). rewrite round_pos_eq by lra. ring.
  - rewrite (round_pos_eq Hx). rewrite round_neg_eq by lra.
    rewrite (round_pos_comp (x := - - x) (y := x)); [reflexivity | lra | ring].
  - rewrite (round_zero_eq Hx). rewrite round_zero_eq by (rewrite Hx; reflexivity).
    reflexivity.
Qed.

Lemma round_nonneg (x : Q) : 0 <= x -> 0 <= round prec emin x.
Proof.
  intro Hx. destruct (Qle_lt_or_eq _ _ Hx) as [H|H].
  - rewrite (round_pos_eq H). apply round_pos_nonneg. exact H.
  - rewrite round_zero_eq by (symmetry; exact H). apply Qle_refl.
Qed.

Lemma round_nonpos (x : Q) : x <= 0 -> round prec emin x <= 0.
Proof.
  intro Hx. destruct (Qle_lt_or_eq _ _ Hx) as [H|H].
  - rewrite (round_neg_eq H).
    assert (0 <= round_pos prec emin (- x)) by (apply round_pos_nonneg; lra).
    lra.
  - rewrite round_zero_eq by exact H. apply Qle_refl.
Qed.

(** Rounding is monotone. *)
Lemma round_mono (x y : Q) : x <= y -> round prec emin x <= round prec emin y.
Proof.
  intro H.
  destruct (Qlt_le_dec 0 x) as [Hx|Hx].
  - assert (Hy : 0 < y) by (apply Qlt_le_trans with x; assumption).
    rewrite (round_pos_eq Hx), (round_pos_eq Hy).
    apply round_pos_mono; assumption.
  - destruct (Qlt_le_dec y 0) as [Hy|Hy].
    + assert (Hx' : x < 0) by (apply Qle_lt_trans with y; assumption).
      rewrite (round_neg_eq Hy), (round_neg_eq Hx').
      assert (round_pos prec emin (- y) <= round_pos prec emin (- x))
        by (apply round_pos_mono; lra).
      lra.
    + apply Qle_trans with 0; [apply round_nonpos | apply round_nonneg]; assumption.
Qed.

(** The numbers of the format are left as they are. *)
Lemma round_generic (m e : Z) :
  (Z.abs m <= 2 ^ prec)%Z -> (emin <= e)%Z ->
  round prec emin (inject_Z m * 2 ^ e) == inject_Z m * 2 ^ e.
Proof.
  intros Hm He. pose proof (pow2_pos e) as P.
  destruct (Z.lt_trichotomy m 0) as [H|[H|H]].
  - assert (Hq : inject_Z m < 0) by (rewrite Zlt_Qlt in H; exact H).
    rewrite round_neg_eq by nra.
    assert (E : - (inject_Z m * 2 ^ e) == inject_Z (- m) * 2 ^ e)
      by (rewrite inject_Z_opp; ring).
    rewrite (round_pos_comp (y := inject_Z (- m) * 2 ^ e)); [|nra|exact E].
    rewrite round_pos_generic by lia. rewrite inject_Z_opp. ring.
  - subst m. rewrite round_zero_eq by ring. ring.
  - assert (Hq : 0 < inject_Z m) by (rewrite Zlt_Qlt in H; exact H).
    rewrite round_pos_eq by nra. apply round_pos_generic; lia.
Qed.

Lemma round_idem (x : Q) :
  round prec emin (round prec emin x) == round prec emin x.
Proof.
  assert (P : forall y, 0 < y ->
            round prec emin (round_pos prec emin y) == round_pos prec emin y).
  { intros y Hy. destruct (round_pos_format Hy) as (m & Hm & E).
    rewrite E. apply round_generic; [lia | unfold fexp; lia]. }
  destruct (Q_dec x 0) as [[Hx|Hx]|Hx].
  - rewrite (round_comp (round_neg_eq Hx)).
    rewrite round_opp. rewrite P by lra. rewrite (round_neg_eq Hx). reflexivity.
  - rewrite (round_comp (round_pos_eq Hx)). rewrite (P x Hx).
    rewrite (round_pos_eq Hx). reflexivity.
  - rewrite (round_zero_eq Hx). reflexivity.
Qed.

Lemma round_Z (n : Z) :
  (emin <= 0)%Z -> (Z.abs n <= 2 ^ prec)%Z ->
  round prec emin (inject_Z n) == inject_Z n.
Proof.
  intros He Hn.
  assert (E : inject_Z n == inject_Z n * 2 ^ 0) by (simpl; ring).
  rewrite (round_comp E). rewrite round_generic by assumption. simpl. ring.
Qed.

(** The error of rounding a number whose unit is above the least unit. *)
Lemma round_pos_upper (x : Q) :
  0 < x -> (emin + prec - 1 <= ilog2 x)%Z ->
  round_pos prec emin x <= x + x * 2 ^ (- prec).
Proof.
  intros Hx Hl. destruct (ilog2_spec Hx) as [S1 _].
  unfold round_pos.
  replace (Z.max (ilog2 x - (prec - 1)) emin) with (ilog2 x - (prec - 1))%Z by lia.
  set (e := (ilog2 x - (prec - 1))%Z).
  destruct (rne_bounds (x * 2 ^ (- e))) as (_ & _ & U).
  pose proof (pow2_pos e) as P. pose proof (pow2_cancel e) as C.
  assert (A : inject_Z (rne (x * 2 ^ (- e))) * 2 ^ e <= x + (1 # 2) * 2 ^ e).
  { apply Qle_trans with ((x * 2 ^ (- e) + (1 # 2)) * 2 ^ e); [nra|].
    setoid_replace ((x * 2 ^ (- e) + (1 # 2)) * 2 ^ e)
      with (x * (2 ^ e * 2 ^ (- e)) + (1 # 2) * 2 ^ e) by ring.
    rewrite C. lra. }
  apply Qle_trans with (x + (1 # 2) * 2 ^ e); [exact A|].
  assert (B : (1 # 2) * 2 ^ e == 2 ^ ilog2 x * 2 ^ (- prec)).
  { rewrite <- pow2_add. replace (ilog2 x + - prec)%Z with (e + (- 1))%Z by (unfold e; lia).
    rewrite pow2_add. change (2 ^ (-1)) with (1 # 2). ring. }
  rewrite B. pose proof (pow2_pos (- prec)). nra.
Qed.

(** The error of a rounding: at most [2^-prec] of the number, or half the
    least unit. *)
Lemma round_pos_error (x : Q) :
  0 < x ->
  x - (x * 2 ^ (- prec) + 2 ^ (emin - 1)) <= round_pos prec emin x
  /\ round_pos prec emin x <= x + (x * 2 ^ (- prec) + 2 ^ (emin - 1)).
Proof.
  intro Hx. destruct (ilog2_spec Hx) as [S1 _].
  unfold round_pos.
  set (e := Z.max (ilog2 x - (prec - 1)) emin).
  destruct (rne_bounds (x * 2 ^ (- e))) as (_ & L & U).
  pose proof (pow2_pos e) as P. pose proof (pow2_cancel e) as C.
  assert (Hh : (1 # 2) * 2 ^ e <= x * 2 ^ (- prec) + 2 ^ (emin - 1)).
  { assert (Eh : (1 # 2) * 2 ^ e == 2 ^ (e - 1)).
    { replace (e - 1)%Z with (e + -1)%Z by lia.
      rewrite pow2_add. change (2 ^ (-1)) with (1 # 2). ring. }
    rewrite Eh.
    pose proof (pow2_pos (emin - 1)). pose proof (pow2_pos (- prec)).
    destruct (Z.max_spec (ilog2 x - (prec - 1)) emin) as [[_ E]|[_ E]];
      fold e in E; rewrite E.
    - nra.
    - replace (ilog2 x - (prec - 1) - 1)%Z with (ilog2 x + - prec)%Z by lia.
      rewrite pow2_add. nra. }
  set (r := inject_Z (rne (x * 2 ^ (- e)))) in *.
  assert (Ex : x * 2 ^ (- e) * 2 ^ e == x).
  { rewrite <- Qmult_assoc, (Qmult_comm (2 ^ (- e))), C. ring. }
  split.
  - apply Qle_trans with (x - (1 # 2) * 2 ^ e); [lra|].
    rewrite <- Ex at 1. nra.
  - apply Qle_trans with (x + (1 # 2) * 2 ^ e); [|lra].
    rewrite <- Ex at 1. nra.
Qed.
End Format.

End RoundFacts.

(* ------------------------------------------------------------------------- *)
(** ** Facts on the arithmetic of [float] *)

Module FloatFacts.

Import Num.

Lemma fl32_comp (x y : Q) : x == y -> fl32 x = fl32 y.
Proof. apply RoundFacts.round_comp. Qed.

Lemma fl32_mono (x y : Q) : x <= y -> fl32 x <= fl32 y.
Proof. apply RoundFacts.round_mono. lia. Qed.

Lemma fl32_nonneg (x : Q) : 0 <= x -> 0 <= fl32 x.
Proof. apply RoundFacts.round_nonneg. Qed.

Lemma fl32_nonpos (x : Q) : x <= 0 -> fl32 x <= 0.
Proof. apply RoundFacts.round_nonpos. Qed.

Lemma fl32_zero (x : Q) : x == 0 -> fl32 x = 0.
Proof. apply RoundFacts.round_zero_eq. Qed.

Lemma fl32_opp (x : Q) : fl32 (- x) == - fl32 x.
Proof. apply RoundFacts.round_opp. Qed.

(** The result of an operation is a value of [float]. *)
Lemma fl32_isFloat (x : Q) : isFloat (fl32 x).
Proof. apply RoundFacts.round_idem. lia. Qed.

(** [m * 2^e] is a value of [float] when [m] has 24 bits and [e] is not
    below the exponent of the subnormal numbers. *)
Lemma fl32_generic (m e : Z) :
  (Z.abs m <= 2 ^ 24)%Z -> (-149 <= e)%Z ->
  fl32 (inject_Z m * 2 ^ e) == inject_Z m * 2 ^ e.
Proof. apply RoundFacts.round_generic. lia. Qed.

(** The integers of 24 bits are values of [float]. *)
Lemma fl32_Z (n : Z) : (Z.abs n <= 2 ^ 24)%Z -> fl32 (inject_Z n) == inject_Z n.
Proof. apply RoundFacts.round_Z; lia. Qed.

(** A float below a value of [float] is the rounding of a number below it. *)
Lemma fl32_lt_inv (x y : Q) : isFloat y -> fl32 x < y -> x < y.
Proof.
  intros Hy H. apply Qnot_le_lt. intro Hle.
  apply fl32_mono in Hle. unfold isFloat in Hy. rewrite Hy in Hle.
  exact (Qlt_not_le _ _ H Hle).
Qed.

Lemma fl32_gt_inv (x y : Q) : isFloat y -> y < fl32 x -> y < x.
Proof.
  intros Hy H. apply Qnot_le_lt. intro Hle.
  apply fl32_mono in Hle. unfold isFloat in Hy. rewrite Hy in Hle.
  exact (Qlt_not_le _ _ H Hle).
Qed.

(** Rounding moves a number of absolute value at least [1/2] by at most
    [2^-24] of it. *)
Lemma fl32_upper (x : Q) : 1 # 2 <= x -> fl32 x <= x + x * (1 # 16777216).
Proof.
  intro Hx. assert (H0 : 0 < x) by lra.
  unfold fl32. rewrite (RoundFacts.round_pos_eq 24 (-149) H0).
  change (1 # 16777216) with (2 ^ (- 24)).
  apply RoundFacts.round_pos_upper; [exact H0 |].
  apply Z.le_trans with (-1)%Z; [lia|].
  change (-1)%Z with (ilog2 (1 # 2)).
  apply RoundFacts.ilog2_mono; [reflexivity | exact Hx].
Qed.

Lemma fmul_square_nonneg (a : Q) : 0 <= fmul a a.
Proof. apply fl32_nonneg. nra. Qed.

(** A square is below the square of [r >= 0] only for a number between [-r]
    and [r]; so it is of the rounded squares. *)
Lemma fmul_square_lt (a r : Q) :
  0 <= r -> fmul a a < fmul r r -> - r < a /\ a < r.
Proof.
  intros Hr H.
  assert (Hsq : a * a < r * r).
  { apply Qnot_le_lt. intro Hle. apply fl32_mono in Hle.
    exact (Qlt_not_le _ _ H Hle). }
  split; nra.
Qed.

(** The conversion of an integer of 24 bits and its quotient by a power of
    two are exact. *)
Lemma float_of_int_small (n : Z) :
  (Z.abs n <= 2 ^ 24)%Z -> float_of_int n == inject_Z n.
Proof. apply fl32_Z. Qed.

Lemma fdiv_pow2 (n k : Z) :
  (Z.abs n <= 2 ^ 24)%Z -> (0 <= k < 31)%Z ->
  fdiv (float_of_int n) (float_of_int (2 ^ k)) == inject_Z n / inject_Z (2 ^ k).
Proof.
  intros Hn Hk.
  assert (Hp : (0 < 2 ^ k)%Z) by (apply Z.pow_pos_nonneg; lia).
  assert (E2 : float_of_int (2 ^ k) == inject_Z (2 ^ k)).
  { unfold float_of_int.
    assert (E : inject_Z (2 ^ k) == inject_Z 1 * 2 ^ k).
    { rewrite RoundFacts.pow2_Z by lia. change (inject_Z 1) with 1. ring. }
    rewrite (fl32_comp E), fl32_generic by lia.
    rewrite RoundFacts.pow2_Z by lia. change (inject_Z 1) with 1. ring. }
  assert (E : float_of_int n / float_of_int (2 ^ k) == inject_Z n * 2 ^ (- k)).
  { rewrite E2, (float_of_int_small n Hn).
    rewrite Qpower_opp, <- RoundFacts.pow2_Z by lia. reflexivity. }
  unfold fdiv. rewrite (fl32_comp E), fl32_generic by lia.
  rewrite Qpower_opp, <- RoundFacts.pow2_Z by lia. reflexivity.
Qed.

(** The error of one operation on floats. *)
Lemma fl32_error (x : Q) :
  0 <= x ->
  x - (x * Num.eps + Num.eta) <= fl32 x /\ fl32 x <= x + (x * Num.eps + Num.eta).
Proof.
  intro Hx. destruct (Qle_lt_or_eq _ _ Hx) as [H|H].
  - unfold fl32. rewrite (RoundFacts.round_pos_eq 24 (-149) H).
    apply (@RoundFacts.round_pos_error 24 (-149) x H).
  - rewrite fl32_zero by (symmetry; exact H).
    rewrite <- H. unfold Num.eps, Num.eta. split; vm_compute; discriminate.
Qed.

(** The rounded square of the rounded value of a number of absolute value
    at most [2^30]. *)
Lemma rounded_square (a : Q) :
  a * a <= 1152921504606846976 ->
  fmul (fl32 a) (fl32 a)
  <= (1 + Num.eps) * ((1 + Num.eps) * (1 + Num.eps)) * (a * a)
     + ((1 + Num.eps) * (2 * (1 + Num.eps) * Num.eta * 1073741824 + Num.eta * Num.eta) + Num.eta).
Proof.
  intro Ha.
  assert (W : forall b : Q, 0 <= b -> b * b <= 1152921504606846976 ->
              fl32 b * fl32 b
              <= (1 + Num.eps) * (1 + Num.eps) * (b * b)
                 + (2 * (1 + Num.eps) * Num.eta * 1073741824 + Num.eta * Num.eta)).
  { intros b Hb Hbb. destruct (fl32_error Hb) as [_ U].
    pose proof (fl32_nonneg Hb) as N.
    assert (Hb30 : b <= 1073741824) by nra.
    assert (E0 : 0 <= Num.eta) by (vm_compute; discriminate).
    assert (E1 : 0 <= Num.eps) by (vm_compute; discriminate).
    set (m := b + (b * Num.eps + Num.eta)) in *.
    assert (Hm : fl32 b * fl32 b <= m * m) by nra.
    apply Qle_trans with (m * m); [exact Hm|].
    unfold m.
    setoid_replace ((b + (b * Num.eps + Num.eta)) * (b + (b * Num.eps + Num.eta)))
      with ((1 + Num.eps) * (1 + Num.eps) * (b * b) + (2 * (1 + Num.eps) * Num.eta * b + Num.eta * Num.eta))
      by ring.
    assert (0 <= 2 * (1 + Num.eps) * Num.eta) by nra.
    nra. }
  assert (Sq : fl32 a * fl32 a
               <= (1 + Num.eps) * (1 + Num.eps) * (a * a)
                  + (2 * (1 + Num.eps) * Num.eta * 1073741824 + Num.eta * Num.eta)).
  { destruct (Qlt_le_dec a 0) as [Hn|Hp].
    - pose proof (W (- a) ltac:(lra)) as Wn.
      rewrite fl32_opp in Wn.
      setoid_replace (- fl32 a * - fl32 a) with (fl32 a * fl32 a) in Wn by ring.
      setoid_replace (- a * - a) with (a * a) in Wn by ring.
      apply Wn. exact Ha.
    - apply W; assumption. }
  assert (N : 0 <= fl32 a * fl32 a) by nra.
  destruct (fl32_error N) as [_ U]. unfold fmul.
  assert (E1 : 0 <= Num.eps) by (vm_compute; discriminate).
  set (t := fl32 a * fl32 a) in *. set (s := fl32 t) in *.
  set (aa := a * a) in *.
  set (c := 2 * (1 + Num.eps) * Num.eta * 1073741824 + Num.eta * Num.eta) in *.
  clearbody s t aa c.
  assert (U' : s <= (1 + Num.eps) * t + Num.eta) by lra.
  apply Qle_trans with ((1 + Num.eps) * t + Num.eta); [exact U'|].
  assert (K : (1 + Num.eps) * t <= (1 + Num.eps) * ((1 + Num.eps) * (1 + Num.eps) * aa + c)).
  { apply RoundFacts.Qmult_le_l_weak; [lra | exact Sq]. }
  lra.
Qed.

End FloatFacts.

(* ------------------------------------------------------------------------- *)
(** ** Facts on the numeric conversions *)

Module NumFacts.

Lemma Qlt_bool_iff (a b : Q) : Num.Qlt_bool a b = true <-> a < b.
Proof.
  unfold Num.Qlt_bool. rewrite negb_true_iff. split; intro H.
  - apply Qnot_le_lt. intro Hle. apply Qle_bool_iff in Hle. congruence.
  - destruct (Qle_bool b a) eqn:E; [|reflexivity].
    apply Qle_bool_iff in E. exfalso. exact (Qlt_not_le _ _ H E).
Qed.

Lemma Qsquare_nonneg (a : Q) : 0 <= a * a.
Proof.
  destruct (Qlt_le_dec a 0) as [H|H].
  - setoid_replace (a * a) with ((- a) * (- a)) by ring.
    apply Qmult_le_0_compat; lra.
  - apply Qmult_le_0_compat; exact H.
Qed.

(** Truncation is the floor on the non-negative floats. *)
Lemma Qtrunc_nonneg (q : Q) : 0 <= q -> Num.Qtrunc q = Qfloor q.
Proof.
  destruct q as [n d]. unfold Qle, Num.Qtrunc, Qfloor. simpl. intro H.
  apply Z.quot_div_nonneg; lia.
Qed.

Lemma Qfloor_unique (q : Q) (z : Z) :
  inject_Z z <= q -> q < inject_Z (z + 1) -> Qfloor q = z.
Proof.
  intros Hlo Hhi.
  assert (H1 : (z < Qfloor q + 1)%Z).
  { rewrite Zlt_Qlt. eapply Qle_lt_trans; [exact Hlo | apply Qlt_floor]. }
  assert (H2 : (Qfloor q < z + 1)%Z).
  { rewrite Zlt_Qlt. eapply Qle_lt_trans; [apply Qfloor_le | exact Hhi]. }
  lia.
Qed.

(** The floor of [(x + n) / m] for integers [n] and [m > 0]. *)
Lemma Qfloor_shift_div (x : Q) (n m : Z) :
  (0 < m)%Z ->
  Qfloor ((x + inject_Z n) / inject_Z m) = ((Qfloor x + n) / m)%Z.
Proof.
  intro Hm.
  assert (Hmq : 0 < inject_Z m) by (unfold Qlt; simpl; lia).
  set (z := ((Qfloor x + n) / m)%Z).
  assert (Hz1 : (z * m <= Qfloor x + n)%Z).
  { unfold z. rewrite Z.mul_comm. apply Z.mul_div_le. exact Hm. }
  assert (Hz2 : (Qfloor x + n + 1 <= (z + 1) * m)%Z).
  { unfold z. pose proof (Z.mod_pos_bound (Qfloor x + n) m Hm).
    pose proof (Z.div_mod (Qfloor x + n) m). nia. }
  apply Qfloor_unique.
  - apply Qle_shift_div_l; [exact Hmq|].
    rewrite <- inject_Z_mult.
    apply Qle_trans with (inject_Z (Qfloor x + n)).
    + rewrite <- Zle_Qle. exact Hz1.
    + rewrite inject_Z_plus. apply Qplus_le_compat; [apply Qfloor_le | apply Qle_refl].
  - apply Qlt_shift_div_r; [exact Hmq|].
    rewrite <- inject_Z_mult.
    apply Qlt_le_trans with (inject_Z (Qfloor x + n + 1)).
    + replace (Qfloor x + n + 1)%Z with ((Qfloor x + 1) + n)%Z by ring.
      rewrite inject_Z_plus. apply Qplus_lt_le_compat; [apply Qlt_floor | apply Qle_refl].
    + rewrite <- Zle_Qle. exact Hz2.
Qed.

Lemma to_uint32_small (z : Z) : (0 <= z < 2 ^ 32)%Z -> Num.to_uint32 z = z.
Proof. intro H. unfold Num.to_uint32. apply Z.mod_small. exact H. Qed.

Lemma to_int32_small (z : Z) : (0 <= z < 2 ^ 31)%Z -> Num.to_int32 z = z.
Proof.
  intro H. unfold Num.to_int32. rewrite Z.mod_small; lia.
Qed.

Lemma to_int32_range (z : Z) : (- 2 ^ 31 <= Num.to_int32 z < 2 ^ 31)%Z.
Proof.
  unfold Num.to_int32.
  pose proof (Z.mod_pos_bound (z + 2 ^ 31) (2 ^ 32) ltac:(lia)). lia.
Qed.

(** One axis of [Grid::add]: the truncated coordinate, shifted by the offset,
    divided by the cell size. *)
Lemma axis_index_trunc (c : Q) (off k : Z) :
  (0 <= k)%Z ->
  (0 <= Num.Qtrunc c + off < 2 ^ 31)%Z ->
  Num.to_int32 (Z.shiftr (Num.to_uint32 (Num.uint32_of_float c + off)) k)
  = ((Num.Qtrunc c + off) / 2 ^ k)%Z.
Proof.
  intros Hk Hlt.
  assert (Hp : (0 < 2 ^ k)%Z) by (apply Z.pow_pos_nonneg; lia).
  unfold Num.uint32_of_float, Num.to_uint32.
  rewrite Zplus_mod_idemp_l.
  rewrite Z.mod_small by lia.
  rewrite Z.shiftr_div_pow2 by exact Hk.
  apply to_int32_small. split.
  - apply Z.div_pos; lia.
  - apply Z.le_lt_trans with (Num.Qtrunc c + off)%Z; [|lia].
    apply Z.div_le_upper_bound; [lia|]. nia.
Qed.

(** One axis of [Grid::add] on a non-negative coordinate. *)
Lemma axis_index_nonneg (c : Q) (off k : Z) :
  0 <= c -> (0 <= off)%Z -> (0 <= k)%Z ->
  (Num.Qtrunc c + off < 2 ^ 31)%Z ->
  Num.to_int32 (Z.shiftr (Num.to_uint32 (Num.uint32_of_float c + off)) k)
  = Qfloor ((c + inject_Z off) / inject_Z (2 ^ k)).
Proof.
  intros Hc Hoff Hk Hlt.
  assert (Hp : (0 < 2 ^ k)%Z) by (apply Z.pow_pos_nonneg; lia).
  assert (H0 : (0 <= Qfloor c)%Z).
  { change 0%Z with (Qfloor 0). apply Qfloor_resp_le. exact Hc. }
  rewrite Qfloor_shift_div by exact Hp.
  rewrite <- (Qtrunc_nonneg Hc) in H0 |- *.
  apply axis_index_trunc; [exact Hk | lia].
Qed.

(** The ceiling of a quotient of integers. *)
Lemma Qceiling_div (s c : Z) :
  Qceiling (inject_Z s / inject_Z c) = (- ((- s) / c))%Z.
Proof.
  unfold Qceiling. f_equal.
  rewrite (Zdiv_Qdiv (- s) c).
  apply Qfloor_comp. unfold Qdiv. rewrite inject_Z_opp. ring.
Qed.

(** Along one axis of a domain [0..t] whose extent is not a multiple of 8,
    the window of a query at pixel [fq] with radius [D] covers the cell of
    each pixel within [D] of [fq]. *)
Lemma window_axis (t fp fq D : Z) :
  (0 <= t < 65536)%Z -> (t mod 8 <> 0)%Z -> (0 <= fp <= t)%Z ->
  (fq - D <= fp <= fq + D)%Z ->
  (0 <= Z.max (Z.min (fq - D) (t - 1)) 0 / 8 <= fp / 8)%Z
  /\ (fp / 8 < Z.min (1 + Z.max (Z.min (fq + D) (t - 1)) 0 / 8) (t / 8 + 1) <= 8192)%Z.
Proof.
  intros Ht H8 Hp HD. Z.to_euclidean_division_equations. lia.
Qed.

Lemma flat_index_small (x y n : Z) :
  (0 <= x < 8192)%Z -> (0 <= y < 8192)%Z -> (0 <= n <= 8192)%Z ->
  (0 <= x + n * y < 2 ^ 32)%Z.
Proof.
  intros Hx Hy Hn. change (2 ^ 32)%Z with 4294967296%Z. nia.
Qed.

(** Two floats closer than a whole number [D] have floors within [D]. *)
Lemma floor_within (a b : Q) (D : Z) :
  - inject_Z D < a - b -> a - b < inject_Z D ->
  (Qfloor a - D <= Qfloor b <= Qfloor a + D)%Z.
Proof.
  intros H1 H2.
  pose proof (Qfloor_le a) as La. pose proof (Qlt_floor a) as Ua.
  pose proof (Qfloor_le b) as Lb. pose proof (Qlt_floor b) as Ub.
  rewrite inject_Z_plus in Ua, Ub. simpl in Ua, Ub.
  split.
  - assert (H : inject_Z (Qfloor a) < inject_Z (Qfloor b + 1 + D)).
    { rewrite !inject_Z_plus. simpl. lra. }
    rewrite <- Zlt_Qlt in H. lia.
  - assert (H : inject_Z (Qfloor b) < inject_Z (Qfloor a + 1 + D)).
    { rewrite !inject_Z_plus. simpl. lra. }
    rewrite <- Zlt_Qlt in H. lia.
Qed.

(** A whole number of 24 bits is a value of [float], and so is its
    opposite. *)
Lemma whole_isFloat (r : Q) (D : Z) :
  r == inject_Z D -> (Z.abs D <= 2 ^ 24)%Z ->
  Num.isFloat r /\ Num.isFloat (- r).
Proof.
  intros Hr HD. unfold Num.isFloat. split.
  - rewrite (FloatFacts.fl32_comp Hr), Hr. apply FloatFacts.fl32_Z. exact HD.
  - rewrite FloatFacts.fl32_opp. rewrite (FloatFacts.fl32_comp Hr), Hr.
    rewrite (FloatFacts.fl32_Z D HD). reflexivity.
Qed.

(** When the rounded square of the rounded difference of [a] and [b] is below
    the rounded square of a whole radius of 24 bits, [a] and [b] differ by
    less than the radius. *)
Lemma axis_within (a b r : Q) (D : Z) :
  0 <= r -> r == inject_Z D -> (D <= 2 ^ 24)%Z ->
  Num.fmul (Num.fsub a b) (Num.fsub a b) < Num.fmul r r ->
  - inject_Z D < a - b /\ a - b < inject_Z D.
Proof.
  intros Hr Hwhole HD H.
  assert (HD0 : (0 <= D)%Z).
  { rewrite Zle_Qle. change (inject_Z 0) with 0. rewrite <- Hwhole. exact Hr. }
  destruct (@whole_isFloat r D Hwhole ltac:(lia)) as [F1 F2].
  destruct (FloatFacts.fmul_square_lt _ Hr H) as [L U].
  unfold Num.fsub in L, U. rewrite <- Hwhole. split.
  - apply FloatFacts.fl32_gt_inv; assumption.
  - apply FloatFacts.fl32_lt_inv; assumption.
Qed.

End NumFacts.

(* ------------------------------------------------------------------------- *)
(** ** Facts on the grid *)

Module GridFacts.

Import Grid.

Lemma push_back_at_length (j : nat) (p : vec2) (cells : list Cell) :
  length (push_back_at j p cells) = length cells.
Proof.
  revert j. induction cells as [|c cells IH]; intros [|j]; simpl; auto.
Qed.

Lemma push_back_at_nth (j i : nat) (p : vec2) (cells : list Cell) :
  (j < length cells)%nat ->
  nth i (push_back_at j p cells) []
  = if Nat.eqb i j then nth i cells [] ++ [p] else nth i cells [].
Proof.
  revert j i. induction cells as [|c cells IH]; intros j i Hj; simpl in Hj.
  - lia.
  - destruct j as [|j], i as [|i]; simpl; try reflexivity.
    apply IH. lia.
Qed.

Lemma push_back_at_concat (j : nat) (p q : vec2) (cells : list Cell) :
  In q (concat (push_back_at j p cells)) -> q = p \/ In q (concat cells).
Proof.
  revert j. induction cells as [|c cells IH]; intros j H.
  - destruct j; simpl in H; contradiction.
  - destruct j as [|j]; simpl in H; simpl; rewrite !in_app_iff in *.
    + destruct H as [[H|H]|H]; auto.
      simpl in H. destruct H as [H|[]]. auto.
    + destruct H as [H|H]; auto.
      destruct (IH _ H); auto.
Qed.

(** A point stored in the grid after [add] is the added point or was
    stored before. *)
Lemma add_points (g : t) (p q : vec2) :
  In q (points (add g p)) -> q = p \/ In q (points g).
Proof.
  unfold add, points.
  destruct (Num.to_size_t (cellIndex g p) <? Z.of_nat (length (mGrid g)))%Z; simpl.
  - apply push_back_at_concat.
  - auto.
Qed.

Lemma cellAt_points (g : t) (j : Z) (q : vec2) :
  In q (cellAt g j) -> In q (points g).
Proof.
  unfold cellAt, points. destruct (j <? 0)%Z; [intros []|].
  intro H. apply in_concat. exists (nth (Z.to_nat j) (mGrid g) []).
  split; [|exact H].
  destruct (Nat.lt_ge_cases (Z.to_nat j) (length (mGrid g))) as [Hlt|Hge].
  - apply nth_In. exact Hlt.
  - rewrite nth_overflow in H by exact Hge. destruct H.
Qed.

Lemma fold_add_points (l : list vec2) (g : t) (q : vec2) :
  In q (points (fold_left add l g)) -> In q l \/ In q (points g).
Proof.
  revert g. induction l as [|p l IH]; intros g H; simpl in *.
  - auto.
  - destruct (IH _ H) as [H1|H1]; auto.
    destruct (add_points _ _ _ H1); auto.
Qed.

Lemma repeat_nil_concat (n : nat) : concat (repeat (@nil vec2) n) = [].
Proof. induction n as [|n IH]; simpl; auto. Qed.

Lemma Grid_points (a : Area.t) (k : Z) (q : vec2) : ~ In q (points (Grid a k)).
Proof.
  unfold points, Grid, resize, resize_k. cbn [mGrid].
  rewrite repeat_nil_concat. intros [].
Qed.

(** [hasNeighbors] answers true exactly when a visited cell stores a point
    whose [length2] to [p] is below [sqRadius]. *)
Lemma hasNeighbors_true_iff (g : t) (p : vec2) (radius : Q) :
  hasNeighbors g p radius = true <->
  exists j q, In j (scanWindow g p radius) /\ In q (cellAt g j)
              /\ Glm.length2 (Glm.minus p q) < Num.fmul radius radius.
Proof.
  unfold hasNeighbors. rewrite existsb_exists. split.
  - intros (j & Hj & H). apply existsb_exists in H. destruct H as (q & Hq & H).
    exists j, q. rewrite <- NumFacts.Qlt_bool_iff. auto.
  - intros (j & q & Hj & Hq & H). exists j. split; [exact Hj|].
    apply existsb_exists. exists q. rewrite NumFacts.Qlt_bool_iff. auto.
Qed.

Lemma hasNeighbors_false (g : t) (p : vec2) (radius : Q) :
  hasNeighbors g p radius = false ->
  forall j q, In j (scanWindow g p radius) -> In q (cellAt g j) ->
              Num.fmul radius radius <= Glm.length2 (Glm.minus p q).
Proof.
  intros H j q Hj Hq. apply Qnot_lt_le. intro Hlt.
  assert (Ht : hasNeighbors g p radius = true).
  { apply hasNeighbors_true_iff. exists j, q. auto. }
  congruence.
Qed.

Lemma length2_nonneg (a : vec2) : 0 <= Glm.length2 a.
Proof.
  unfold Glm.length2, Num.fadd. apply FloatFacts.fl32_nonneg.
  pose proof (FloatFacts.fmul_square_nonneg (vx a)).
  pose proof (FloatFacts.fmul_square_nonneg (vy a)).
  lra.
Qed.

(** A [length2] below [sqRadius] has both its squares below it. *)
Lemma length2_axes (a : vec2) (radius : Q) :
  Glm.length2 a < Num.fmul radius radius ->
  Num.fmul (vx a) (vx a) < Num.fmul radius radius
  /\ Num.fmul (vy a) (vy a) < Num.fmul radius radius.
Proof.
  intro H. unfold Glm.length2, Num.fadd in H.
  apply FloatFacts.fl32_lt_inv in H; [|apply FloatFacts.fl32_isFloat].
  pose proof (FloatFacts.fmul_square_nonneg (vx a)).
  pose proof (FloatFacts.fmul_square_nonneg (vy a)).
  split; lra.
Qed.

(** What the test of the code says of the Euclidean distance: when the
    [length2] of [q - p] is not below the float [d * d], for [d] between 1
    and [2^30], the squared distance of [q] and [p] is at least
    [(1 - 2^-21) d^2]. *)
Lemma length2_exact (q p : vec2) (d : Q) :
  1 <= d -> d <= 1073741824 ->
  Num.fmul d d <= Glm.length2 (Glm.minus q p) ->
  (1 - (1 # 2097152)) * (d * d) <= sqDistance q p.
Proof.
  intros Hd1 Hd2 H. unfold sqDistance.
  set (a := vx q - vx p). set (b := vy q - vy p).
  assert (Haa : 0 <= a * a) by nra. assert (Hbb : 0 <= b * b) by nra.
  assert (Hdd : 1 <= d * d) by nra.
  assert (Hdd2 : d * d <= 1152921504606846976) by nra.
  destruct (Qlt_le_dec (a * a) (d * d)) as [Ha|Ha]; [|nra].
  destruct (Qlt_le_dec (b * b) (d * d)) as [Hb|Hb]; [|nra].
  pose proof (@FloatFacts.rounded_square a ltac:(lra)) as Sx.
  pose proof (@FloatFacts.rounded_square b ltac:(lra)) as Sy.
  pose proof (FloatFacts.fmul_square_nonneg (Num.fl32 a)) as Nx.
  pose proof (FloatFacts.fmul_square_nonneg (Num.fl32 b)) as Ny.
  unfold Glm.length2, Glm.minus, Num.fadd, Num.fsub in H. cbn [vx vy] in H.
  fold a b in H.
  destruct (@FloatFacts.fl32_error (Num.fmul (Num.fl32 a) (Num.fl32 a) + Num.fmul (Num.fl32 b) (Num.fl32 b)) ltac:(lra))
    as [_ UL].
  destruct (@FloatFacts.fl32_error (d * d) ltac:(lra)) as [LS _].
  unfold Num.fmul at 1 in H.
  set (sx := Num.fmul (Num.fl32 a) (Num.fl32 a)) in *.
  set (sy := Num.fmul (Num.fl32 b) (Num.fl32 b)) in *.
  set (L := Num.fl32 (sx + sy)) in *. set (S := Num.fl32 (d * d)) in *.
  set (aa := a * a) in *. set (bb := b * b) in *. set (dd := d * d) in *.
  clearbody sx sy L S aa bb dd. clear a b Nx Ny.
  unfold Num.eps, Num.eta in *.
  lra.
Qed.

(** With a zero radius no point is a neighbour. *)
Lemma hasNeighbors_zero (g : t) (p : vec2) (radius : Q) :
  radius == 0 -> hasNeighbors g p radius = false.
Proof.
  intro Hr. destruct (hasNeighbors g p radius) eqn:E; [|reflexivity].
  apply hasNeighbors_true_iff in E. destruct E as (j & q & _ & _ & H).
  exfalso. apply (Qlt_not_le _ _ H).
  assert (E : Num.fmul radius radius = 0).
  { apply FloatFacts.fl32_zero. rewrite Hr. ring. }
  rewrite E. apply length2_nonneg.
Qed.

Lemma in_zrange (lo hi v : Z) : In v (zrange lo hi) <-> (lo <= v < hi)%Z.
Proof.
  unfold zrange. rewrite in_map_iff. split.
  - intros (i & <- & Hi). apply in_seq in Hi. lia.
  - intro H. exists (Z.to_nat (v - lo)). split; [lia|].
    apply in_seq. lia.
Qed.

Lemma in_scanWindow (g : t) (p : vec2) (radius : Q) (j : Z) :
  In j (scanWindow g p radius) <->
  exists x y,
    j = Num.to_uint32 (x + ix (mNumCells g) * y)
    /\ (Num.to_uint32 (ix (minCell g p radius)) <= x
        < Num.to_uint32 (ix (maxCell g p radius)))%Z
    /\ (Num.to_uint32 (iy (minCell g p radius)) <= y
        < Num.to_uint32 (iy (maxCell g p radius)))%Z.
Proof.
  unfold scanWindow. rewrite in_flat_map. split.
  - intros (y & Hy & Hj). apply in_map_iff in Hj. destruct Hj as (x & <- & Hx).
    apply in_zrange in Hx, Hy. exists x, y. auto.
  - intros (x & y & -> & Hx & Hy). exists y. split; [apply in_zrange; exact Hy|].
    apply in_map_iff. exists x. split; [reflexivity | apply in_zrange; exact Hx].
Qed.

(** [add] changes the cells only. *)
Lemma add_static (g : t) (p : vec2) :
  mNumCells (add g p) = mNumCells g
  /\ mOffset (add g p) = mOffset g
  /\ mBounds (add g p) = mBounds g
  /\ mK (add g p) = mK g
  /\ mCellSize (add g p) = mCellSize g
  /\ length (mGrid (add g p)) = length (mGrid g).
Proof.
  unfold add.
  destruct (Num.to_size_t (cellIndex g p) <? Z.of_nat (length (mGrid g)))%Z; simpl.
  - rewrite push_back_at_length. repeat split.
  - repeat split.
Qed.

Lemma fold_add_static (l : list vec2) (g : t) :
  mNumCells (fold_left add l g) = mNumCells g
  /\ mOffset (fold_left add l g) = mOffset g
  /\ mBounds (fold_left add l g) = mBounds g
  /\ mK (fold_left add l g) = mK g
  /\ mCellSize (fold_left add l g) = mCellSize g
  /\ length (mGrid (fold_left add l g)) = length (mGrid g).
Proof.
  revert g. induction l as [|p l IH]; intro g; simpl.
  - repeat split.
  - destruct (IH (add g p)) as (H1 & H2 & H3 & H4 & H5 & H6).
    destruct (add_static g p) as (A1 & A2 & A3 & A4 & A5 & A6).
    rewrite H1, H2, H3, H4, H5, H6. repeat split; assumption.
Qed.







Lemma shiftl_cellSize (k : Z) :
  (0 <= k < 32)%Z -> Num.to_uint32 (Z.shiftl 1 k) = (2 ^ k)%Z.
Proof.
  intro Hk. rewrite Z.shiftl_1_l.
  assert (2 ^ k < 2 ^ 32)%Z by (apply Z.pow_lt_mono_r; lia).
  assert (0 < 2 ^ k)%Z by (apply Z.pow_pos_nonneg; lia).
  apply NumFacts.to_uint32_small. lia.
Qed.

(** The numbers of cells along the axes, for extents of 24 bits at most:
    the extents divided by the cell size, rounded up. *)
Lemma Grid_numCells (a : Area.t) (k : Z) :
  (0 <= k < 31)%Z ->
  (Z.abs (Area.x2 a - Area.x1 a) <= 2 ^ 24)%Z ->
  (Z.abs (Area.y2 a - Area.y1 a) <= 2 ^ 24)%Z ->
  mNumCells (Grid a k)
  = mkIvec2 (Qceiling (inject_Z (Area.x2 a - Area.x1 a) / inject_Z (2 ^ k)))
            (Qceiling (inject_Z (Area.y2 a - Area.y1 a) / inject_Z (2 ^ k))).
Proof.
  intros Hk Hx Hy. unfold Grid, resize, resize_k.
  cbn [mNumCells mBounds Area.getSize ix iy].
  rewrite (shiftl_cellSize (k := k)) by lia.
  f_equal; apply Qceiling_comp; apply FloatFacts.fdiv_pow2; assumption.
Qed.

(** The number of cells of a grid whose product of cells fits in an
    [int]. *)
Lemma Grid_length (a : Area.t) (k : Z) :
  (0 <= ix (mNumCells (Grid a k)) * iy (mNumCells (Grid a k)) < 2 ^ 31)%Z ->
  Z.of_nat (length (mGrid (Grid a k)))
  = (ix (mNumCells (Grid a k)) * iy (mNumCells (Grid a k)))%Z.
Proof.
  intro H. unfold Grid, resize, resize_k in *.
  cbn [mGrid mNumCells ix iy] in *. rewrite repeat_length.
  rewrite NumFacts.to_int32_small by exact H.
  unfold Num.to_size_t. rewrite Z.mod_small by lia.
  apply Z2Nat.id. lia.
Qed.


Lemma add_cellAt (g : t) (p : vec2) (i : Z) :
  (0 <= cellIndex g p < Z.of_nat (length (mGrid g)))%Z ->
  cellAt (add g p) i
  = if (i =? cellIndex g p)%Z then cellAt g i ++ [p] else cellAt g i.
Proof.
  intros [Hlo Hhi]. unfold add.
  assert (Hs : (Num.to_size_t (cellIndex g p) <? Z.of_nat (length (mGrid g)))%Z = true).
  { apply Z.ltb_lt. unfold Num.to_size_t.
    apply Z.le_lt_trans with (cellIndex g p); [|exact Hhi].
    apply Z.mod_le; lia. }
  rewrite Hs. unfold cellAt. simpl.
  destruct (i <? 0)%Z eqn:Hi.
  - apply Z.ltb_lt in Hi. destruct (Z.eqb_spec i (cellIndex g p)); [lia|reflexivity].
  - apply Z.ltb_ge in Hi. rewrite push_back_at_nth by lia.
    destruct (Z.eqb_spec i (cellIndex g p)) as [->|Hne].
    + rewrite Nat.eqb_refl. reflexivity.
    + destruct (Nat.eqb_spec (Z.to_nat i) (Z.to_nat (cellIndex g p))); [lia|reflexivity].
Qed.

Lemma push_back_at_keeps (n i : nat) (q p : vec2) (cells : list Cell) :
  In p (nth i cells []) -> In p (nth i (push_back_at n q cells) []).
Proof.
  revert n i. induction cells as [|c cells IH]; intros n i H.
  - destruct n; exact H.
  - destruct n as [|n], i as [|i]; simpl in *; auto.
    apply in_or_app. left. exact H.
Qed.

(** [add] removes nothing from a cell. *)
Lemma add_keeps (g : t) (q p : vec2) (j : Z) :
  In p (cellAt g j) -> In p (cellAt (add g q) j).
Proof.
  unfold add, cellAt.
  destruct (Num.to_size_t (cellIndex g q) <? Z.of_nat (length (mGrid g)))%Z; simpl;
    [|auto].
  destruct (j <? 0)%Z; [auto|]. apply push_back_at_keeps.
Qed.

Lemma fold_add_keeps (l : list vec2) (g : t) (p : vec2) (j : Z) :
  In p (cellAt g j) -> In p (cellAt (fold_left add l g) j).
Proof.
  revert g. induction l as [|q l IH]; intros g H; simpl; [exact H|].
  apply IH, add_keeps, H.
Qed.

(** *** Domains with origin [(0,0)]

    The domain is [(0,0)-(tW,tH)] in pixels, with extents that are not
    multiples of the cell size 8; a point is inside when its truncated
    coordinates are pixels [0..tW] and [0..tH]. *)

Section ZeroOrigin.

Variables tW tH : Z.
Hypothesis HW : (0 <= tW < 65536)%Z.
Hypothesis HH : (0 <= tH < 65536)%Z.
Hypothesis HW8 : (tW mod 8 <> 0)%Z.
Hypothesis HH8 : (tH mod 8 <> 0)%Z.

Let area : Area.t := Area.mk 0 0 tW tH.
Let nx : Z := (tW / 8 + 1)%Z.
Let ny : Z := (tH / 8 + 1)%Z.

Let inside (p : vec2) : Prop :=
  0 <= vx p /\ 0 <= vy p /\ (Qfloor (vx p) <= tW)%Z /\ (Qfloor (vy p) <= tH)%Z.

Let cellOf (p : vec2) : Z := (Qfloor (vx p) / 8 + nx * (Qfloor (vy p) / 8))%Z.

Lemma zero_origin_fields (l : list vec2) :
  let g := fold_left add l (Grid area 3) in
  mNumCells g = mkIvec2 nx ny
  /\ mOffset g = mkIvec2 0 0
  /\ mBounds g = area
  /\ mK g = 3%Z
  /\ Z.of_nat (length (mGrid g)) = (nx * ny)%Z.
Proof.
  destruct (fold_add_static l (Grid area 3)) as (H1 & H2 & H3 & H4 & _ & H6).
  cbv zeta. rewrite H1, H2, H3, H4, H6.
  assert (En : mNumCells (Grid area 3) = mkIvec2 nx ny).
  { rewrite Grid_numCells; unfold area; cbn [Area.x1 Area.x2 Area.y1 Area.y2];
      rewrite ?Z.sub_0_r; try lia.
    rewrite !NumFacts.Qceiling_div. change (2 ^ 3)%Z with 8%Z.
    f_equal; [unfold nx | unfold ny]; Z.to_euclidean_division_equations; lia. }
  assert (N : (0 <= nx * ny < 2 ^ 31)%Z).
  { assert (0 <= tW / 8 < 8192)%Z
      by (split; [apply Z.div_pos | apply Z.div_lt_upper_bound]; lia).
    assert (0 <= tH / 8 < 8192)%Z
      by (split; [apply Z.div_pos | apply Z.div_lt_upper_bound]; lia).
    unfold nx, ny. change (2 ^ 31)%Z with 2147483648%Z. nia. }
  rewrite Grid_length; rewrite En; cbn [ix iy]; [|exact N].
  repeat split.
Qed.

Lemma floor_nonneg (c : Q) : 0 <= c -> (0 <= Qfloor c)%Z.
Proof. intro H. change 0%Z with (Qfloor 0). apply Qfloor_resp_le. exact H. Qed.

Lemma cellOf_in_range (p : vec2) : inside p -> (0 <= cellOf p < nx * ny)%Z.
Proof.
  intros (Hx & Hy & Hfx & Hfy).
  pose proof (floor_nonneg Hx). pose proof (floor_nonneg Hy).
  assert (Ax : (0 <= Qfloor (vx p) / 8 <= tW / 8)%Z)
    by (split; [apply Z.div_pos | apply Z.div_le_mono]; lia).
  assert (Ay : (0 <= Qfloor (vy p) / 8 <= tH / 8)%Z)
    by (split; [apply Z.div_pos | apply Z.div_le_mono]; lia).
  unfold cellOf, nx, ny. nia.
Qed.

(** [Grid::add] computes [cellOf] on a point inside the domain. *)
Lemma cellIndex_inside (l : list vec2) (p : vec2) :
  inside p -> cellIndex (fold_left add l (Grid area 3)) p = cellOf p.
Proof.
  intros (Hx & Hy & Hfx & Hfy).
  pose proof (floor_nonneg Hx). pose proof (floor_nonneg Hy).
  destruct (zero_origin_fields l) as (H1 & H2 & _ & H4 & _).
  unfold cellIndex. rewrite H1, H2, H4. cbn [ix iy].
  rewrite !NumFacts.axis_index_trunc;
    rewrite ?(NumFacts.Qtrunc_nonneg Hx), ?(NumFacts.Qtrunc_nonneg Hy); try lia.
  rewrite !Z.add_0_r. apply NumFacts.to_int32_small.
  pose proof (cellOf_in_range (conj Hx (conj Hy (conj Hfx Hfy)))) as Hr.
  assert (N : (nx * ny <= 8192 * 8192)%Z).
  { assert (0 <= tW / 8 < 8192)%Z
      by (split; [apply Z.div_pos | apply Z.div_lt_upper_bound]; lia).
    assert (0 <= tH / 8 < 8192)%Z
      by (split; [apply Z.div_pos | apply Z.div_lt_upper_bound]; lia).
    unfold nx, ny. nia. }
  change (2 ^ 31)%Z with 2147483648%Z.
  unfold cellOf in Hr |- *. fold nx in Hr |- *.
  set (c := (Qfloor (vx p) / 8 + nx * (Qfloor (vy p) / 8))%Z) in *.
  set (n := (nx * ny)%Z) in *. clearbody c n. lia.
Qed.

(** Every point inside the domain that was added is in its cell. *)
Lemma added_point_is_stored (l : list vec2) (p : vec2) :
  In p l -> inside p -> In p (cellAt (fold_left add l (Grid area 3)) (cellOf p)).
Proof.
  intros Hin Hp. apply in_split in Hin. destruct Hin as (l1 & l2 & ->).
  rewrite fold_left_app. simpl. apply fold_add_keeps.
  pose proof (cellOf_in_range Hp) as Hr.
  destruct (zero_origin_fields l1) as (_ & _ & _ & _ & Hlen).
  rewrite add_cellAt; rewrite (cellIndex_inside l1 Hp); [|lia].
  rewrite Z.eqb_refl. apply in_or_app. right. left. reflexivity.
Qed.

(** The cell of a point inside the domain is visited by the query of a point
    inside the domain whose [length2] to it is below the float square of a
    whole radius. *)
Lemma near_cell_is_visited (l : list vec2) (q p : vec2) (radius : Q) :
  inside q -> inside p ->
  0 <= radius -> radius == inject_Z (Num.Qtrunc radius) ->
  Glm.length2 (Glm.minus q p) < Num.fmul radius radius ->
  In (cellOf p) (scanWindow (fold_left add l (Grid area 3)) q radius).
Proof.
  intros (Hqx & Hqy & Hqfx & Hqfy) (Hpx & Hpy & Hpfx & Hpfy) Hr Hwhole Hlt.
  pose proof (floor_nonneg Hqx) as Fqx. pose proof (floor_nonneg Hqy) as Fqy.
  pose proof (floor_nonneg Hpx) as Fpx. pose proof (floor_nonneg Hpy) as Fpy.
  assert (Fx : (Qfloor (vx q) - Num.Qtrunc radius <= Qfloor (vx p)
                <= Qfloor (vx q) + Num.Qtrunc radius)%Z
               /\ (Qfloor (vy q) - Num.Qtrunc radius <= Qfloor (vy p)
                   <= Qfloor (vy q) + Num.Qtrunc radius)%Z).
  { destruct (Z_le_gt_dec (Num.Qtrunc radius) (2 ^ 24)) as [Hs|Hb].
    - (* a radius of 24 bits is a float: the comparison is exact *)
      destruct (length2_axes _ _ Hlt) as [Ax Ay].
      unfold Glm.minus in Ax, Ay. cbn [vx vy] in Ax, Ay.
      destruct (@NumFacts.axis_within (vx q) (vx p) radius (Num.Qtrunc radius)
                  Hr Hwhole Hs Ax) as [Hx1 Hx2].
      destruct (@NumFacts.axis_within (vy q) (vy p) radius (Num.Qtrunc radius)
                  Hr Hwhole Hs Ay) as [Hy1 Hy2].
      split; apply NumFacts.floor_within; assumption.
    - (* a larger radius covers the domain *)
      change (2 ^ 24)%Z with 16777216%Z in Hb. lia. }
  destruct Fx as [Fx Fy].
  destruct (@NumFacts.window_axis tW (Qfloor (vx p)) (Qfloor (vx q))
              (Num.Qtrunc radius) HW HW8 (conj Fpx Hpfx) Fx) as [Bx1 Bx2].
  destruct (@NumFacts.window_axis tH (Qfloor (vy p)) (Qfloor (vy q))
              (Num.Qtrunc radius) HH HH8 (conj Fpy Hpfy) Fy) as [By1 By2].
  fold nx in Bx2. fold ny in By2.
  assert (Nx : (0 <= nx <= 8192)%Z).
  { assert (0 <= tW / 8 < 8192)%Z
      by (split; [apply Z.div_pos | apply Z.div_lt_upper_bound]; lia).
    unfold nx. lia. }
  clear Fx Fy Hlt Hwhole Hr Hqfx Hqfy Hpfx Hpfy Fqx Fqy Fpx Fpy.
  destruct (zero_origin_fields l) as (E1 & E2 & E3 & E4 & _).
  apply in_scanWindow. exists (Qfloor (vx p) / 8)%Z, (Qfloor (vy p) / 8)%Z.
  unfold minCell, maxCell, cellOf. rewrite E1, E2, E3, E4.
  unfold area, Glm.imin, Glm.iadd, Glm.imax, Glm.isub, Glm.ivec2_of_int,
    Glm.ivec2_of_float, Glm.ivec2_of_vec2, Area.getUL, Area.getLR.
  cbn [ix iy Area.x1 Area.x2 Area.y1 Area.y2].
  rewrite (NumFacts.Qtrunc_nonneg Hqx), (NumFacts.Qtrunc_nonneg Hqy).
  rewrite !Z.add_0_r, !Z.shiftr_div_pow2 by (clear; lia).
  change (2 ^ 3)%Z with 8%Z.
  set (ax := (Z.max (Z.min (Qfloor (vx q) - Num.Qtrunc radius) (tW - 1)) 0 / 8)%Z) in *.
  set (ay := (Z.max (Z.min (Qfloor (vy q) - Num.Qtrunc radius) (tH - 1)) 0 / 8)%Z) in *.
  set (bx := Z.min (1 + Z.max (Z.min (Qfloor (vx q) + Num.Qtrunc radius) (tW - 1)) 0 / 8) nx) in *.
  set (by' := Z.min (1 + Z.max (Z.min (Qfloor (vy q) + Num.Qtrunc radius) (tH - 1)) 0 / 8) ny) in *.
  set (cx := (Qfloor (vx p) / 8)%Z) in *.
  set (cy := (Qfloor (vy p) / 8)%Z) in *.
  clearbody ax ay bx by' cx cy. clear E1 E2 E3 E4.
  assert (P32 : (2 ^ 32 = 4294967296)%Z) by reflexivity.
  rewrite (NumFacts.to_uint32_small (z := ax)) by lia.
  rewrite (NumFacts.to_uint32_small (z := ay)) by lia.
  rewrite (NumFacts.to_uint32_small (z := bx)) by lia.
  rewrite (NumFacts.to_uint32_small (z := by')) by lia.
  rewrite (NumFacts.to_uint32_small (z := cx + nx * cy))
    by (apply NumFacts.flat_index_small; lia).
  split; [reflexivity|]. split; lia.
Qed.

(** On such a domain and for a whole radius, [hasNeighbors] misses no point
    inside the domain that passes its test. *)
Lemma hasNeighbors_complete (l : list vec2) (q p : vec2) (radius : Q) :
  In p l -> inside p -> inside q ->
  0 <= radius -> radius == inject_Z (Num.Qtrunc radius) ->
  Glm.length2 (Glm.minus q p) < Num.fmul radius radius ->
  hasNeighbors (fold_left add l (Grid area 3)) q radius = true.
Proof.
  intros Hin Hp Hq Hr Hwhole Hlt.
  apply hasNeighbors_true_iff. exists (cellOf p), p.
  split; [|split].
  - apply near_cell_is_visited; assumption.
  - apply added_point_is_stored; assumption.
  - exact Hlt.
Qed.

End ZeroOrigin.

(** C4, as amended: a point that [Grid::add] retains is appended to exactly
    one cell, the cell of flat index [x + numCellsX * y] where each axis
    index is [((uint32_t) coordinate + offset) >> k], that is
    [floor((trunc(coordinate) + offset) / cellSize)], the coordinate being
    truncated toward zero before the offset is added.  This holds where the
    integer types of the code do not wrap: the truncated coordinates are not
    negative (the conversion to [uint32_t] is defined), and the shifted
    coordinates [trunc(coordinate) + offset] and the flat index are below
    [2^31].  For a point with non-negative coordinates this cell is the cell
    [floor((coordinate + offset) / cellSize)] of the specification. *)
Theorem add_stores_in_one_cell (g : t) (p : vec2) :
  (0 <= mK g)%Z -> (0 <= ix (mNumCells g))%Z ->
  (0 <= ix (mOffset g))%Z -> (0 <= iy (mOffset g))%Z ->
  (0 <= Num.Qtrunc (vx p))%Z -> (0 <= Num.Qtrunc (vy p))%Z ->
  (Num.Qtrunc (vx p) + ix (mOffset g) < 2 ^ 31)%Z ->
  (Num.Qtrunc (vy p) + iy (mOffset g) < 2 ^ 31)%Z ->
  let x := ((Num.Qtrunc (vx p) + ix (mOffset g)) / 2 ^ mK g)%Z in
  let y := ((Num.Qtrunc (vy p) + iy (mOffset g)) / 2 ^ mK g)%Z in
  (x + ix (mNumCells g) * y < 2 ^ 31)%Z ->
  (0 <= cellIndex g p < Z.of_nat (length (mGrid g)))%Z ->
  cellIndex g p = (x + ix (mNumCells g) * y)%Z
  /\ (forall i : Z,
        cellAt (add g p) i
        = if (i =? x + ix (mNumCells g) * y)%Z then cellAt g i ++ [p]
          else cellAt g i)
  /\ (0 <= vx p -> 0 <= vy p -> mCellSize g = (2 ^ mK g)%Z ->
      (x + ix (mNumCells g) * y)%Z = specCellIndex g p).
Proof.
  intros Hk Hn Hox Hoy Htx Hty Hbx Hby x y Hflat Hj.
  assert (Hp : (0 < 2 ^ mK g)%Z) by (apply Z.pow_pos_nonneg; lia).
  assert (Hx : (0 <= x)%Z) by (apply Z.div_pos; lia).
  assert (Hy : (0 <= y)%Z) by (apply Z.div_pos; lia).
  assert (E : cellIndex g p = (x + ix (mNumCells g) * y)%Z).
  { unfold cellIndex.
    rewrite (@NumFacts.axis_index_trunc (vx p) (ix (mOffset g)) (mK g) Hk)
      by lia.
    rewrite (@NumFacts.axis_index_trunc (vy p) (iy (mOffset g)) (mK g) Hk)
      by lia.
    fold x y. apply NumFacts.to_int32_small. nia. }
  split; [exact E|]. split.
  - intro i. rewrite <- E. apply add_cellAt. exact Hj.
  - intros Hpx Hpy Hcs. unfold specCellIndex. rewrite Hcs.
    rewrite <- (@NumFacts.axis_index_nonneg (vx p) (ix (mOffset g)) (mK g)
                  Hpx Hox Hk) by lia.
    rewrite <- (@NumFacts.axis_index_nonneg (vy p) (iy (mOffset g)) (mK g)
                  Hpy Hoy Hk) by lia.
    rewrite (@NumFacts.axis_index_trunc (vx p) (ix (mOffset g)) (mK g) Hk)
      by lia.
    rewrite (@NumFacts.axis_index_trunc (vy p) (iy (mOffset g)) (mK g) Hk)
      by lia.
    reflexivity.
Qed.

Lemma add_stores_in_one_cell_witness :
  let g := Grid (Area.mk 0 0 16 16) 3 in
  let p := mkVec2 (15 # 2) 0 in
  cellIndex g p = 0%Z
  /\ cellAt (add g p) 0 = [p]
  /\ cellAt (add g p) 1 = []
  /\ specCellIndex g p = 0%Z.
Proof.
  intros g p.
  assert (H1 : (0 <= mK g)%Z) by (vm_compute; discriminate).
  assert (H2 : (0 <= ix (mNumCells g))%Z) by (vm_compute; discriminate).
  assert (H3 : (0 <= ix (mOffset g))%Z) by (vm_compute; discriminate).
  assert (H4 : (0 <= iy (mOffset g))%Z) by (vm_compute; discriminate).
  assert (H5 : (0 <= Num.Qtrunc (vx p))%Z) by (vm_compute; discriminate).
  assert (H6 : (0 <= Num.Qtrunc (vy p))%Z) by (vm_compute; discriminate).
  assert (H7 : (Num.Qtrunc (vx p) + ix (mOffset g) < 2 ^ 31)%Z)
    by (vm_compute; reflexivity).
  assert (H8 : (Num.Qtrunc (vy p) + iy (mOffset g) < 2 ^ 31)%Z)
    by (vm_compute; reflexivity).
  assert (H9 : ((Num.Qtrunc (vx p) + ix (mOffset g)) / 2 ^ mK g
                + ix (mNumCells g)
                  * ((Num.Qtrunc (vy p) + iy (mOffset g)) / 2 ^ mK g) < 2 ^ 31)%Z)
    by (vm_compute; reflexivity).
  assert (Hj : (0 <= cellIndex g p < Z.of_nat (length (mGrid g)))%Z)
    by (vm_compute; split; [discriminate | reflexivity]).
  destruct (@add_stores_in_one_cell g p H1 H2 H3 H4 H5 H6 H7 H8 H9 Hj)
    as (Hindex & Hcells & Hspec).
  split; [exact Hindex|]. split; [|split].
  - rewrite (Hcells 0%Z). reflexivity.
  - rewrite (Hcells 1%Z). reflexivity.
  - rewrite <- Hspec.
    + reflexivity.
    + vm_compute. discriminate.
    + vm_compute. discriminate.
    + reflexivity.
Defined.

(** C4, as stated, fails on a negative fractional coordinate: in the domain
    [(-8,-8)-(8,8)] the point [(-1/2,-1/2)] is retained in cell 3, while
    [floor((coordinate + offset) / cellSize)] names cell 0. *)
Lemma add_truncates_toward_zero :
  let g := Grid (Area.mk (-8) (-8) 8 8) 3 in
  let p := mkVec2 (-1 # 2) (-1 # 2) in
  specCellIndex g p = 0%Z
  /\ cellAt (add g p) 0 = []
  /\ cellAt (add g p) 3 = [p].
Proof.
  intros g p. repeat split.
Qed.

(** C3 fails at a query that the constant-separation sampler makes
    (separation [43/4], domain [(0,0)-(30,100)], initial points [(11/4,50)]
    and [(24,50)], candidate [(27/2,50)]): the grid retains [(24,50)], in
    cell 27, at distance [21/2] of the query point; the query visits the
    cells of columns 0 to 2 only, and [hasNeighbors] answers false. *)
Theorem hasNeighbors_misses_neighbor :
  let g := add (add (Grid (Area.mk 0 0 30 100) 3) (mkVec2 (11 # 4) 50)) (mkVec2 24 50) in
  let p := mkVec2 (27 # 2) 50 in
  let q := mkVec2 24 50 in
  In q (cellAt g 27)
  /\ Glm.length2 (Glm.minus p q) < (43 # 4) * (43 # 4)
  /\ scanWindow g p (43 # 4) = [20; 21; 22; 24; 25; 26; 28; 29; 30]%Z
  /\ hasNeighbors g p (43 # 4) = false.
Proof.
  intros g p q. split; [|split; [|split]].
  - vm_compute. left. reflexivity.
  - vm_compute. reflexivity.
  - vm_compute. reflexivity.
  - vm_compute. reflexivity.
Qed.

End GridFacts.

(* ------------------------------------------------------------------------- *)
(** ** Facts on the samplers, for every random source *)

Section SamplerFacts.

Context {G : Type} {RS : RandomSource G} {TR : Trig}.

Let St : Type := State G.

(** *** The processing list *)

Lemma erase_nth_incl (i : nat) (l : list vec2) : incl (erase_nth i l) l.
Proof.
  revert i. induction l as [|a l IH]; intros i; simpl.
  - apply incl_refl.
  - destruct i as [|i].
    + apply incl_tl, incl_refl.
    + intros p [->|Hp]; [left; reflexivity | right; exact (IH i p Hp)].
Qed.

Lemma erase_nth_length (i : nat) (l : list vec2) :
  (i < length l)%nat -> S (length (erase_nth i l)) = length l.
Proof.
  revert i. induction l as [|a l IH]; intros i Hi; simpl in *.
  - lia.
  - destruct i as [|i]; simpl; [reflexivity|].
    rewrite IH by lia. reflexivity.
Qed.

Lemma pick_Some (l : list vec2) (i : Z) (center : vec2) (rest : list vec2) :
  pick l i = Some (center, rest) ->
  In center l /\ incl rest l /\ S (length rest) = length l.
Proof.
  unfold pick. destruct ((0 <=? i)%Z && (i <? Z.of_nat (length l))%Z) eqn:E;
    [|discriminate].
  apply andb_true_iff in E. destruct E as [E1 E2].
  apply Z.leb_le in E1. apply Z.ltb_lt in E2.
  destruct (nth_error l (Z.to_nat i)) as [c|] eqn:En; [|discriminate].
  intro H. injection H as <- <-. split; [|split].
  - eapply nth_error_In. exact En.
  - apply erase_nth_incl.
  - apply erase_nth_length. lia.
Qed.

Lemma pick_in_range (l : list vec2) (i : Z) :
  (0 <= i < Z.of_nat (length l))%Z -> exists c rest, pick l i = Some (c, rest).
Proof.
  intros [H1 H2]. unfold pick.
  assert (E : ((0 <=? i)%Z && (i <? Z.of_nat (length l))%Z) = true).
  { apply andb_true_iff. split; [apply Z.leb_le | apply Z.ltb_lt]; assumption. }
  rewrite E.
  destruct (nth_error l (Z.to_nat i)) as [c|] eqn:En.
  - eauto.
  - apply nth_error_None in En. lia.
Qed.

(** Under the contract of [randInt] the index drawn by the loop is valid. *)
Lemma pick_randInt (Hrange : randInt_in_range G) (l : list vec2) (g : G) :
  l <> [] ->
  exists c rest,
    pick l (fst (randInt 0 (Z.of_nat (length l) - 1) g)) = Some (c, rest).
Proof.
  intro Hl. apply pick_in_range.
  assert (Hlen : (0 < length l)%nat) by (destruct l; [congruence | simpl; lia]).
  pose proof (Hrange 0%Z (Z.of_nat (length l) - 1)%Z g) as H.
  lia.
Qed.

(** *** The start of a run *)

Lemma fold_accept (l : list vec2) (st : St) :
  let st' := fold_left (fun st p => accept p st) l st in
  processingList st' = processingList st ++ l
  /\ outputList st' = outputList st ++ l
  /\ grid st' = fold_left Grid.add l (grid st)
  /\ rng st' = rng st.
Proof.
  revert st. induction l as [|p l IH]; intro st; simpl.
  - rewrite !app_nil_r. auto.
  - destruct (IH (accept p st)) as (H1 & H2 & H3 & H4).
    rewrite H1, H2, H3, H4. simpl. rewrite <- !app_assoc. auto.
Qed.

Lemma initialise_seeds (bounds : Rectf.t) (initialSet : list vec2) (g : G) :
  let st := initialise bounds initialSet g in
  processingList st = seeds bounds initialSet
  /\ outputList st = seeds bounds initialSet
  /\ grid st = gridOf bounds (seeds bounds initialSet)
  /\ rng st = g.
Proof.
  unfold initialise, gridOf.
  pose proof (fold_accept initialSet
                (mkState [] [] (Grid.Grid (Rectf.toArea bounds) 3) g)) as H.
  simpl in H. destruct H as (H1 & H2 & H3 & H4).
  destruct initialSet as [|p l].
  - simpl. auto.
  - rewrite H1. cbv zeta. rewrite H1, H2, H3, H4. simpl. auto.
Qed.

(** *** The three entry points are one loop *)

Lemma spawn_as_dist (n : nat) (separation : Q) (bounds : Rectf.t)
      (center : vec2) (st : St) :
  spawn n separation bounds center st = spawn_dist n separation bounds center st.
Proof.
  revert st. induction n as [|n IH]; intro st; simpl; [reflexivity|].
  destruct (randFloat (rng st)) as [u1 g1].
  destruct (randFloat g1) as [u2 g2].
  apply IH.
Qed.

Lemma spawn_dist_as_bounds (n : nat) (dist : Q) (bounds : Rectf.t)
      (center : vec2) (st : St) :
  spawn_dist n dist bounds center st
  = spawn_bounds n dist (fun _ => true) bounds center st.
Proof.
  revert st. induction n as [|n IH]; intro st; simpl; [reflexivity|].
  destruct (randFloat (rng st)) as [u1 g1].
  destruct (randFloat g1) as [u2 g2].
  rewrite andb_true_r. apply IH.
Qed.

Lemma loop_as_dist (fuel : nat) (separation : Q) (bounds : Rectf.t) (k : Z)
      (st : St) :
  loop fuel separation bounds k st
  = loop_dist fuel (fun _ => separation) bounds k st.
Proof.
  revert st. induction fuel as [|fuel IH]; intro st; simpl.
  - reflexivity.
  - destruct (processingList st) as [|p l]; [reflexivity|].
    destruct (randInt 0 (Z.of_nat (length (p :: l)) - 1) (rng st)) as [i g1].
    destruct (pick (p :: l) i) as [[center rest]|]; [|reflexivity].
    rewrite spawn_as_dist. apply IH.
Qed.

Lemma loop_dist_as_bounds (fuel : nat) (distFunction : vec2 -> Q)
      (bounds : Rectf.t) (k : Z) (st : St) :
  loop_dist fuel distFunction bounds k st
  = loop_bounds fuel distFunction (fun _ => true) bounds k st.
Proof.
  revert st. induction fuel as [|fuel IH]; intro st; simpl.
  - reflexivity.
  - destruct (processingList st) as [|p l]; [reflexivity|].
    destruct (randInt 0 (Z.of_nat (length (p :: l)) - 1) (rng st)) as [i g1].
    destruct (pick (p :: l) i) as [[center rest]|]; [|reflexivity].
    rewrite spawn_dist_as_bounds. apply IH.
Qed.

Lemma run_as_bounds (v : Variant) (bounds : Rectf.t) (initialSet : list vec2)
      (k : Z) (g : G) (fuel : nat) :
  run v bounds initialSet k g fuel
  = loop_bounds fuel (separationAt v) (admissible v) bounds k
                (initialise bounds initialSet g).
Proof.
  destruct v as [s|f|f b]; simpl.
  - unfold poissonDiskDistribution. rewrite loop_as_dist. apply loop_dist_as_bounds.
  - unfold poissonDiskDistribution_dist. apply loop_dist_as_bounds.
  - reflexivity.
Qed.

(** *** The invariant of the loop *)

Section LoopInvariant.

Variables (distFunction : vec2 -> Q) (boundsFunction : vec2 -> bool).
Variables (bounds : Rectf.t) (seedList : list vec2).

Let Inv : St -> Prop := Invariant distFunction boundsFunction bounds seedList.

Lemma AllAccepted_snoc (n : nat) (out : list vec2) (q : vec2) :
  AllAccepted distFunction boundsFunction bounds n out ->
  Accepted distFunction boundsFunction bounds out q ->
  AllAccepted distFunction boundsFunction bounds n (out ++ [q]).
Proof.
  intros Hall Hq pre q' post. revert pre q'.
  induction post as [|z post _] using rev_ind; intros pre q' Heq Hlen.
  - apply app_inj_tail in Heq. destruct Heq as [<- <-]. exact Hq.
  - rewrite app_comm_cons, app_assoc in Heq.
    apply app_inj_tail in Heq. destruct Heq as [Heq _].
    exact (Hall pre q' post Heq Hlen).
Qed.

Lemma Invariant_with_rng (st : St) (g : G) : Inv st -> Inv (with_rng st g).
Proof. intro H. exact H. Qed.

Lemma Invariant_accept (st : St) (q : vec2) :
  Inv st ->
  Accepted distFunction boundsFunction bounds (outputList st) q ->
  Inv (accept q st).
Proof.
  intros ((gen & Hgen) & Hgrid & Hincl & Hall) Hq.
  split; [|split; [|split]]; simpl.
  - exists (gen ++ [q]). rewrite Hgen, app_assoc. reflexivity.
  - unfold gridOf. rewrite fold_left_app. simpl. rewrite Hgrid. reflexivity.
  - apply incl_app.
    + apply incl_appl. exact Hincl.
    + apply incl_appr. apply incl_refl.
  - apply AllAccepted_snoc; assumption.
Qed.

Lemma spawn_bounds_Invariant (n : nat) (center : vec2) (st : St) :
  Inv st -> In center (outputList st) ->
  let st' := spawn_bounds n (distFunction center) boundsFunction bounds center st in
  Inv st' /\ exists gen, outputList st' = outputList st ++ gen.
Proof.
  revert st. induction n as [|n IH]; intros st Hinv Hc; simpl.
  - split; [exact Hinv|]. exists []. rewrite app_nil_r. reflexivity.
  - destruct (randFloat (rng st)) as [u1 g1] eqn:D1.
    destruct (randFloat g1) as [u2 g2] eqn:D2.
    set (q := candidate center (distFunction center) u1 u2).
    destruct (Rectf.contains bounds q && boundsFunction q
              && negb (Grid.hasNeighbors (grid st) q (distFunction center))) eqn:E.
    + apply andb_true_iff in E. destruct E as [E E3].
      apply andb_true_iff in E. destruct E as [E1 E2].
      apply negb_true_iff in E3.
      assert (Hacc : Accepted distFunction boundsFunction bounds (outputList st) q).
      { split; [exact E1|]. split; [exact E2|].
        exists center, (rng st). unfold candidateAt. rewrite D1. cbn [fst snd].
        rewrite D2. cbn [fst].
        split; [exact Hc|]. split; [reflexivity|].
        destruct Hinv as (_ & Hgrid & _). rewrite <- Hgrid. exact E3. }
      destruct (IH (accept q (with_rng st g2))) as (H1 & gen & H2).
      * apply Invariant_accept; [apply Invariant_with_rng; exact Hinv | exact Hacc].
      * simpl. apply in_or_app. left. exact Hc.
      * split; [exact H1|]. exists (q :: gen). rewrite H2. simpl.
        rewrite <- app_assoc. reflexivity.
    + apply (IH (with_rng st g2)); [apply Invariant_with_rng; exact Hinv | exact Hc].
Qed.

Lemma loop_bounds_Invariant (k : Z) (fuel : nat) (st : St) (out : list vec2) :
  Inv st ->
  produced (loop_bounds fuel distFunction boundsFunction bounds k st) = Some out ->
  (exists gen, out = seedList ++ gen)
  /\ AllAccepted distFunction boundsFunction bounds (length seedList) out.
Proof.
  revert st. induction fuel as [|fuel IH]; intros st Hinv Hout.
  - assert (Hst : out = outputList st).
    { simpl in Hout. destruct (processingList st); simpl in Hout; congruence. }
    subst out. destruct Hinv as (H1 & _ & _ & H4). auto.
  - simpl in Hout. destruct (processingList st) as [|p l] eqn:Hpl.
    + simpl in Hout. injection Hout as <-.
      destruct Hinv as (H1 & _ & _ & H4). auto.
    + destruct (randInt 0 (Z.of_nat (length (p :: l)) - 1) (rng st)) as [i g1].
      destruct (pick (p :: l) i) as [[center rest]|] eqn:Hpick;
        [|simpl in Hout; discriminate].
      apply pick_Some in Hpick. destruct Hpick as (Hc & Hrest & _).
      destruct Hinv as (H1 & H2 & H3 & H4). rewrite Hpl in H3.
      refine (IH _ _ Hout).
      apply spawn_bounds_Invariant.
      * split; [exact H1|]. split; [exact H2|]. split; [|exact H4].
        simpl. intros x Hx. apply H3, Hrest, Hx.
      * simpl. apply H3, Hc.
Qed.

End LoopInvariant.

Lemma Invariant_initialise (distFunction : vec2 -> Q) (boundsFunction : vec2 -> bool)
      (bounds : Rectf.t) (initialSet : list vec2) (g : G) :
  Invariant distFunction boundsFunction bounds (seeds bounds initialSet)
            (initialise bounds initialSet g).
Proof.
  destruct (initialise_seeds bounds initialSet g) as (H1 & H2 & H3 & _).
  split; [|split; [|split]].
  - exists []. rewrite H2, app_nil_r. reflexivity.
  - rewrite H3, H2. reflexivity.
  - rewrite H1, H2. apply incl_refl.
  - intros pre q post Heq Hlen. exfalso. rewrite H2 in Heq.
    apply (f_equal (@length vec2)) in Heq. rewrite length_app in Heq.
    simpl in Heq. lia.
Qed.

(** What every entry point has built after any number of iterations: the
    seeds, followed by points that each passed the test of the loop. *)
Lemma run_produced (v : Variant) (bounds : Rectf.t) (initialSet : list vec2)
      (k : Z) (g : G) (fuel : nat) (out : list vec2) :
  produced (run v bounds initialSet k g fuel) = Some out ->
  (exists gen, out = seeds bounds initialSet ++ gen)
  /\ AllAccepted (separationAt v) (admissible v) bounds
                 (length (seeds bounds initialSet)) out.
Proof.
  rewrite run_as_bounds. apply loop_bounds_Invariant. apply Invariant_initialise.
Qed.

Lemma gridOf_points (bounds : Rectf.t) (l : list vec2) (q : vec2) :
  In q (Grid.points (gridOf bounds l)) -> In q l.
Proof.
  intro H. destruct (GridFacts.fold_add_points _ _ _ H) as [H1|H1]; [exact H1|].
  exfalso. exact (GridFacts.Grid_points _ _ _ H1).
Qed.

(** Every generated point is inside the bounds and admissible. *)
Lemma run_generated (v : Variant) (bounds : Rectf.t) (initialSet : list vec2)
      (k : Z) (g : G) (fuel : nat) (out : list vec2) :
  produced (run v bounds initialSet k g fuel) = Some out ->
  exists gen,
    out = seeds bounds initialSet ++ gen
    /\ forall q, In q gen ->
                 Rectf.contains bounds q = true /\ admissible v q = true.
Proof.
  intro H. destruct (run_produced _ _ _ _ _ _ H) as [(gen & Hgen) Hall].
  exists gen. split; [exact Hgen|].
  intros q Hq. apply in_split in Hq. destruct Hq as (g1 & g2 & ->).
  destruct (Hall (seeds bounds initialSet ++ g1) q g2) as (Hc & Ha & _).
  - rewrite Hgen, <- app_assoc. reflexivity.
  - rewrite length_app. lia.
  - auto.
Qed.

(** *** Regular domains *)

Lemma toArea_regular (bounds : Rectf.t) :
  regularDomain bounds ->
  Rectf.toArea bounds
  = Area.mk 0 0 (Num.Qtrunc (Rectf.x2 bounds)) (Num.Qtrunc (Rectf.y2 bounds)).
Proof.
  intros (Hx1 & Hy1 & Hx2 & Hy2 & _).
  unfold Rectf.toArea, Area.set. rewrite Hx1, Hy1.
  change (Num.Qtrunc 0) with 0%Z.
  rewrite (NumFacts.Qtrunc_nonneg Hx2), (NumFacts.Qtrunc_nonneg Hy2).
  pose proof (GridFacts.floor_nonneg Hx2). pose proof (GridFacts.floor_nonneg Hy2).
  rewrite !Z.min_l, !Z.max_r by lia. reflexivity.
Qed.

Lemma contains_regular (bounds : Rectf.t) (p : vec2) :
  regularDomain bounds ->
  Rectf.contains bounds p = true ->
  0 <= vx p /\ 0 <= vy p
  /\ (Qfloor (vx p) <= Num.Qtrunc (Rectf.x2 bounds))%Z
  /\ (Qfloor (vy p) <= Num.Qtrunc (Rectf.y2 bounds))%Z.
Proof.
  intros (Hx1 & Hy1 & Hx2 & Hy2 & _) Hc. unfold Rectf.contains in Hc.
  rewrite !andb_true_iff, !Qle_bool_iff, Hx1, Hy1 in Hc.
  destruct Hc as [[[A B] C] D].
  rewrite (NumFacts.Qtrunc_nonneg Hx2), (NumFacts.Qtrunc_nonneg Hy2).
  repeat split; auto using Qfloor_resp_le.
Qed.

(** The middle of [0] and [x >= 1], computed on floats, lies between
    them. *)
Lemma half_rounded (x : Q) :
  1 <= x ->
  0 <= Num.fdiv (Num.fadd 0 x) 2 /\ Num.fdiv (Num.fadd 0 x) 2 <= x.
Proof.
  intro Hx. unfold Num.fdiv, Num.fadd.
  assert (E : Num.fl32 (0 + x) = Num.fl32 x)
    by (apply FloatFacts.fl32_comp; ring).
  rewrite E. set (t := Num.fl32 x).
  assert (T1 : 1 <= t).
  { change 1 with (Num.fl32 1) at 1. apply FloatFacts.fl32_mono. exact Hx. }
  assert (T2 : t <= x + x * (1 # 16777216))
    by (apply FloatFacts.fl32_upper; lra).
  assert (H2 : t / 2 == t * (1 # 2)) by (field; discriminate).
  rewrite (FloatFacts.fl32_comp H2).
  split.
  - apply FloatFacts.fl32_nonneg. lra.
  - pose proof (@FloatFacts.fl32_upper (t * (1 # 2)) ltac:(lra)) as U. lra.
Qed.

Lemma center_regular (bounds : Rectf.t) :
  regularDomain bounds ->
  Rectf.contains bounds (Rectf.getCenter bounds) = true.
Proof.
  intros (Hx1 & Hy1 & Hx2 & Hy2 & _ & _ & Mx & My).
  assert (Wx : 1 <= Rectf.x2 bounds).
  { rewrite (NumFacts.Qtrunc_nonneg Hx2) in Mx.
    pose proof (GridFacts.floor_nonneg Hx2) as F.
    assert (F1 : (1 <= Qfloor (Rectf.x2 bounds))%Z).
    { destruct (Z.eq_dec (Qfloor (Rectf.x2 bounds)) 0) as [E|E]; [|lia].
      rewrite E in Mx. exfalso. apply Mx. reflexivity. }
    rewrite Zle_Qle in F1. pose proof (Qfloor_le (Rectf.x2 bounds)).
    change (inject_Z 1) with 1 in F1. lra. }
  assert (Wy : 1 <= Rectf.y2 bounds).
  { rewrite (NumFacts.Qtrunc_nonneg Hy2) in My.
    pose proof (GridFacts.floor_nonneg Hy2) as F.
    assert (F1 : (1 <= Qfloor (Rectf.y2 bounds))%Z).
    { destruct (Z.eq_dec (Qfloor (Rectf.y2 bounds)) 0) as [E|E]; [|lia].
      rewrite E in My. exfalso. apply My. reflexivity. }
    rewrite Zle_Qle in F1. pose proof (Qfloor_le (Rectf.y2 bounds)).
    change (inject_Z 1) with 1 in F1. lra. }
  destruct (half_rounded Wx) as [A1 A2]. destruct (half_rounded Wy) as [B1 B2].
  unfold Rectf.contains, Rectf.getCenter. cbn [vx vy].
  rewrite !andb_true_iff, !Qle_bool_iff, Hx1, Hy1.
  repeat split; assumption.
Qed.

(** On a regular domain seeded inside it, every output point is inside. *)
Lemma run_contained (v : Variant) (bounds : Rectf.t) (initialSet : list vec2)
      (k : Z) (g : G) (fuel : nat) (out : list vec2) :
  regularDomain bounds ->
  (forall p, In p initialSet -> Rectf.contains bounds p = true) ->
  produced (run v bounds initialSet k g fuel) = Some out ->
  forall p, In p out -> Rectf.contains bounds p = true.
Proof.
  intros Hreg Hinit H p Hp.
  destruct (run_generated _ _ _ _ _ _ H) as (gen & -> & Hgen).
  apply in_app_or in Hp. destruct Hp as [Hp|Hp].
  - destruct initialSet as [|a l]; simpl in Hp.
    + destruct Hp as [<-|[]]. apply center_regular. exact Hreg.
    + apply Hinit. exact Hp.
  - apply Hgen. exact Hp.
Qed.

(** On a regular domain, a candidate that passed the query for a whole
    separation [d] passes the test of the code against every earlier point
    inside the domain: no [length2] is below the float [d * d]. *)
Lemma query_is_exact (bounds : Rectf.t) (pre : list vec2) (q : vec2) (d : Q) :
  regularDomain bounds -> wholeSeparation d ->
  Rectf.contains bounds q = true ->
  (forall p, In p pre -> Rectf.contains bounds p = true) ->
  Grid.hasNeighbors (gridOf bounds pre) q d = false ->
  forall p, In p pre -> Num.fmul d d <= Glm.length2 (Glm.minus q p).
Proof.
  intros Hreg [Hd Hwhole] Hq Hpre Hn p Hp.
  destruct (Qlt_le_dec (Glm.length2 (Glm.minus q p)) (Num.fmul d d)) as [Hlt|Hle];
    [exfalso | exact Hle].
  pose proof (@contains_regular bounds q Hreg Hq) as Iq.
  pose proof (@contains_regular bounds p Hreg (Hpre p Hp)) as Ip.
  pose proof Hreg as Hreg0.
  destruct Hreg as (_ & _ & Hx2 & Hy2 & Bx & By & Mx & My).
  pose proof (GridFacts.floor_nonneg Hx2) as Fx. pose proof (GridFacts.floor_nonneg Hy2) as Fy.
  rewrite <- (NumFacts.Qtrunc_nonneg Hx2) in Fx.
  rewrite <- (NumFacts.Qtrunc_nonneg Hy2) in Fy.
  assert (Ht : Grid.hasNeighbors (gridOf bounds pre) q d = true).
  { unfold gridOf.
    rewrite (@toArea_regular bounds Hreg0).
    apply (@GridFacts.hasNeighbors_complete
             (Num.Qtrunc (Rectf.x2 bounds)) (Num.Qtrunc (Rectf.y2 bounds))
             (conj Fx Bx) (conj Fy By) Mx My pre q p d); assumption. }
  congruence.
Qed.



(** *** Runs that spawn nothing *)

Lemma loop_bounds_drain (Hrange : randInt_in_range G)
      (distFunction : vec2 -> Q) (boundsFunction : vec2 -> bool)
      (bounds : Rectf.t) (k : Z) :
  (forall center st,
      let st' := spawn_bounds (Z.to_nat k) (distFunction center) boundsFunction
                              bounds center st in
      processingList st' = processingList st /\ outputList st' = outputList st) ->
  forall (fuel : nat) (st : St),
    (length (processingList st) <= fuel)%nat ->
    loop_bounds fuel distFunction boundsFunction bounds k st
    = Returned (outputList st).
Proof.
  intros Hspawn fuel. induction fuel as [|fuel IH]; intros st Hlen.
  - simpl. destruct (processingList st); [reflexivity | simpl in Hlen; lia].
  - simpl. destruct (processingList st) as [|p l] eqn:Hpl; [reflexivity|].
    destruct (pick_randInt Hrange (l := p :: l) (rng st)) as (c & rest & Hpick);
      [discriminate|].
    destruct (randInt 0 (Z.of_nat (length (p :: l)) - 1) (rng st)) as [i g1].
    simpl fst in Hpick. rewrite Hpick.
    destruct (Hspawn c (mkState rest (outputList st) (grid st) g1)) as [H1 H2].
    simpl in H1, H2.
    rewrite IH.
    + rewrite H2. reflexivity.
    + rewrite H1. apply pick_Some in Hpick. destruct Hpick as (_ & _ & Hl).
      simpl in Hl, Hlen. lia.
Qed.

Lemma loop_bounds_no_fault (Hrange : randInt_in_range G)
      (distFunction : vec2 -> Q) (boundsFunction : vec2 -> bool)
      (bounds : Rectf.t) (k : Z) (fuel : nat) (st : St) :
  loop_bounds fuel distFunction boundsFunction bounds k st <> Fault.
Proof.
  revert st. induction fuel as [|fuel IH]; intro st; simpl.
  - destruct (processingList st); discriminate.
  - destruct (processingList st) as [|p l] eqn:Hpl; [discriminate|].
    destruct (pick_randInt Hrange (l := p :: l) (rng st)) as (c & rest & Hpick);
      [discriminate|].
    destruct (randInt 0 (Z.of_nat (length (p :: l)) - 1) (rng st)) as [i g1].
    simpl fst in Hpick. rewrite Hpick. apply IH.
Qed.


Lemma nonpositive_k_drains (Hrange : randInt_in_range G) (v : Variant)
      (bounds : Rectf.t) (initialSet : list vec2) (k : Z) (g : G) (fuel : nat) :
  (k <= 0)%Z ->
  (length (seeds bounds initialSet) <= fuel)%nat ->
  run v bounds initialSet k g fuel = Returned (seeds bounds initialSet).
Proof.
  intros Hk Hfuel. rewrite run_as_bounds.
  destruct (initialise_seeds bounds initialSet g) as (H1 & H2 & _).
  rewrite loop_bounds_drain.
  - rewrite H2. reflexivity.
  - exact Hrange.
  - intros center st. replace (Z.to_nat k) with O by lia. simpl. auto.
  - rewrite H1. exact Hfuel.
Qed.

(** *** A zero separation *)

(** The coordinates that the code computes are values of [float]. *)
Lemma candidate_isVec2 (center : vec2) (dist u1 u2 : Q) :
  isVec2 (candidate center dist u1 u2).
Proof.
  unfold candidate, Glm.plus, isVec2, Num.fadd. cbn [vx vy].
  split; apply FloatFacts.fl32_isFloat.
Qed.

Lemma getCenter_isVec2 (bounds : Rectf.t) : isVec2 (Rectf.getCenter bounds).
Proof.
  unfold Rectf.getCenter, isVec2, Num.fdiv. cbn [vx vy].
  split; apply FloatFacts.fl32_isFloat.
Qed.

(** With a zero separation the candidate of a point is the point. *)
Lemma candidate_zero (center : vec2) (dist u1 u2 : Q) :
  dist == 0 -> isVec2 center ->
  vx (candidate center dist u1 u2) == vx center
  /\ vy (candidate center dist u1 u2) == vy center.
Proof.
  intros Hd [Fx Fy]. unfold candidate, Glm.plus, Glm.times. cbn [vx vy].
  assert (R : Num.fmul dist (Num.fadd 1 u1) = 0).
  { apply FloatFacts.fl32_zero. rewrite Hd. ring. }
  rewrite R.
  assert (Z0 : forall c, Num.fmul c 0 = 0).
  { intro c. apply FloatFacts.fl32_zero. ring. }
  rewrite !Z0. unfold Num.fadd.
  assert (Ex : vx center + 0 == vx center) by ring.
  assert (Ey : vy center + 0 == vy center) by ring.
  rewrite (FloatFacts.fl32_comp Ex), (FloatFacts.fl32_comp Ey).
  split; assumption.
Qed.

Lemma contains_Qeq (bounds : Rectf.t) (p q : vec2) :
  vx p == vx q -> vy p == vy q ->
  Rectf.contains bounds p = Rectf.contains bounds q.
Proof.
  intros Hx Hy. unfold Rectf.contains. rewrite Hx, Hy. reflexivity.
Qed.

Lemma spawn_bounds_zero (boundsFunction : vec2 -> bool) (bounds : Rectf.t)
      (center : vec2) (dist : Q) :
  dist == 0 ->
  Rectf.contains bounds center = true -> isVec2 center ->
  (forall p, Rectf.contains bounds p = true -> boundsFunction p = true) ->
  forall (n : nat) (st : St),
    (forall p, In p (processingList st) ->
               Rectf.contains bounds p = true /\ isVec2 p) ->
    let st' := spawn_bounds n dist boundsFunction bounds center st in
    (forall p, In p (processingList st') ->
               Rectf.contains bounds p = true /\ isVec2 p)
    /\ length (processingList st') = (length (processingList st) + n)%nat.
Proof.
  intros Hd Hc Hf Hadm n. induction n as [|n IH]; intros st Hpl; simpl.
  - split; [exact Hpl | lia].
  - destruct (randFloat (rng st)) as [u1 g1].
    destruct (randFloat g1) as [u2 g2].
    set (q := candidate center dist u1 u2).
    assert (Hq : Rectf.contains bounds q = true).
    { destruct (candidate_zero u1 u2 Hd Hf) as [Hx Hy].
      rewrite <- Hc. apply contains_Qeq; assumption. }
    rewrite Hq, (Hadm q Hq), (GridFacts.hasNeighbors_zero _ _ Hd). simpl.
    destruct (IH (accept q (with_rng st g2))) as [H1 H2].
    + simpl. intros p Hp. apply in_app_or in Hp. destruct Hp as [Hp|[<-|[]]].
      * apply Hpl, Hp.
      * split; [exact Hq | apply candidate_isVec2].
    + split; [exact H1|]. rewrite H2. simpl. rewrite length_app. simpl. lia.
Qed.

Lemma loop_bounds_zero_never_returns (distFunction : vec2 -> Q)
      (boundsFunction : vec2 -> bool) (bounds : Rectf.t) (k : Z) :
  (forall p, distFunction p == 0) ->
  (forall p, Rectf.contains bounds p = true -> boundsFunction p = true) ->
  (1 <= k)%Z ->
  forall (fuel : nat) (st : St) (out : list vec2),
    processingList st <> [] ->
    (forall p, In p (processingList st) ->
               Rectf.contains bounds p = true /\ isVec2 p) ->
    loop_bounds fuel distFunction boundsFunction bounds k st <> Returned out.
Proof.
  intros Hd Hadm Hk fuel. induction fuel as [|fuel IH]; intros st out Hne Hpl; simpl.
  - destruct (processingList st); [congruence | discriminate].
  - destruct (processingList st) as [|p l] eqn:Hl; [congruence|].
    destruct (randInt 0 (Z.of_nat (length (p :: l)) - 1) (rng st)) as [i g1].
    destruct (pick (p :: l) i) as [[center rest]|] eqn:Hpick; [|discriminate].
    apply pick_Some in Hpick. destruct Hpick as (Hc & Hrest & _).
    destruct (@spawn_bounds_zero boundsFunction bounds center (distFunction center)
                (Hd center) (proj1 (Hpl center Hc)) (proj2 (Hpl center Hc))
                Hadm (Z.to_nat k)
                (mkState rest (outputList st) (grid st) g1)) as [H1 H2].
    + simpl. intros x Hx. apply Hpl, Hrest, Hx.
    + apply IH; [|exact H1].
      intro Hnil. rewrite Hnil in H2. simpl in H2. lia.
Qed.

(** *** The claims on the samplers *)

(** C6: the output of every entry point begins with [initialSet], in its
    order; this holds of the returned list and of the list built so far
    after any number of iterations, and under the contract of [randInt]
    there is such a list after any number of iterations. *)
Theorem initialSet_is_prefix (v : Variant) (bounds : Rectf.t)
        (initialSet : list vec2) (k : Z) (g : G) (fuel : nat) :
  (forall out, produced (run v bounds initialSet k g fuel) = Some out ->
               exists gen, out = initialSet ++ gen)
  /\ (randInt_in_range G ->
      exists out, produced (run v bounds initialSet k g fuel) = Some out).
Proof.
  split.
  - intros out H. destruct (run_produced _ _ _ _ _ _ H) as [(gen & Hgen) _].
    destruct initialSet as [|p l].
    + exists out. reflexivity.
    + exists gen. exact Hgen.
  - intro Hrange.
    pose proof (@loop_bounds_no_fault Hrange (separationAt v) (admissible v) bounds k
                  fuel (initialise bounds initialSet g)) as Hnf.
    rewrite <- run_as_bounds in Hnf.
    destruct (run v bounds initialSet k g fuel) as [o|st|]; simpl; eauto.
    congruence.
Qed.

(** C2, as amended: the output is the seeds ([initialSet], or the centre of
    the domain when [initialSet] is empty), which are copied without any
    test, followed by generated points, and every generated point lies
    within the rectangular bounds and, in the entry point that takes
    [boundsFunction], satisfies it. *)
Theorem generated_points_are_contained (v : Variant) (bounds : Rectf.t)
        (initialSet : list vec2) (k : Z) (g : G) (fuel : nat) (out : list vec2) :
  produced (run v bounds initialSet k g fuel) = Some out ->
  exists gen,
    out = seeds bounds initialSet ++ gen
    /\ forall q, In q gen ->
                 Rectf.contains bounds q = true /\ admissible v q = true.
Proof.
  apply run_generated.
Qed.

(** A whole separation is zero or at least one. *)
Lemma whole_zero_or_one (d : Q) : wholeSeparation d -> d == 0 \/ 1 <= d.
Proof.
  intros [Hd Hw].
  assert (H0 : (0 <= Num.Qtrunc d)%Z).
  { rewrite Zle_Qle. change (inject_Z 0) with 0. rewrite <- Hw. exact Hd. }
  destruct (Z.eq_dec (Num.Qtrunc d) 0) as [E|E].
  - left. rewrite Hw, E. reflexivity.
  - right. rewrite Hw. change 1 with (inject_Z 1). rewrite <- Zle_Qle. lia.
Qed.

(** C1, as amended: every generated point [q] of the output is the
    candidate of an earlier output point, its parent, computed from two
    successive draws of [randFloat], and was kept only after
    [hasNeighbors( q, d )] answered false on the grid of the points before
    it, [d] being the separation in force at the parent (the constant
    separation, or [distanceFunction] at the parent).  Hence every point [p]
    stored in a cell that this query visits, each of them an earlier output
    point, has a squared distance to [q], as the code computes it on floats
    ([glm::length2( q - p )]), that is not below the float [d * d]; for [d]
    between 1 and [2^30] the Euclidean distance of [q] and [p] is then at
    least [d] up to the rounding: its square is at least [(1 - 2^-21) d^2].
    When moreover the domain has origin [(0,0)] and extents whose integer
    parts are below 65536 and not multiples of the cell size, [initialSet]
    lies in the domain and [d] is a whole number of at most [2^30], both
    hold of every earlier output point.  Nothing is promised on two points
    of [initialSet]. *)
Theorem generated_points_pass_neighbor_query (v : Variant) (bounds : Rectf.t)
        (initialSet : list vec2) (k : Z) (g : G) (fuel : nat) (out : list vec2) :
  produced (run v bounds initialSet k g fuel) = Some out ->
  forall pre q post,
    out = pre ++ q :: post ->
    (length (seeds bounds initialSet) <= length pre)%nat ->
    exists (parent : vec2) (ga : G),
      In parent pre
      /\ q = candidateAt (separationAt v) parent ga
      /\ Grid.hasNeighbors (gridOf bounds pre) q (separationAt v parent) = false
      /\ (forall j p,
            In j (Grid.scanWindow (gridOf bounds pre) q (separationAt v parent)) ->
            In p (Grid.cellAt (gridOf bounds pre) j) ->
            In p pre
            /\ Num.fmul (separationAt v parent) (separationAt v parent)
               <= Glm.length2 (Glm.minus q p)
            /\ (1 <= separationAt v parent ->
                separationAt v parent <= 1073741824 ->
                (1 - (1 # 2097152)) * (separationAt v parent * separationAt v parent)
                <= sqDistance q p))
      /\ (regularDomain bounds ->
          (forall p, In p initialSet -> Rectf.contains bounds p = true) ->
          wholeSeparation (separationAt v parent) ->
          separationAt v parent <= 1073741824 ->
          forall p, In p pre ->
                    Num.fmul (separationAt v parent) (separationAt v parent)
                    <= Glm.length2 (Glm.minus q p)
                    /\ (1 - (1 # 2097152))
                       * (separationAt v parent * separationAt v parent)
                       <= sqDistance q p).
Proof.
  intros H pre q post Heq Hlen.
  destruct (run_produced _ _ _ _ _ _ H) as [_ Hall].
  destruct (Hall pre q post Heq Hlen) as (Hq & _ & parent & ga & Hp & Ec & Hn).
  exists parent, ga.
  split; [exact Hp|]. split; [exact Ec|]. split; [exact Hn|]. split.
  - intros j p Hj Hcell.
    pose proof (GridFacts.hasNeighbors_false _ _ _ Hn j p Hj Hcell) as Hle.
    split; [|split].
    + apply (gridOf_points bounds). eapply GridFacts.cellAt_points. exact Hcell.
    + exact Hle.
    + intros H1 H2. exact (GridFacts.length2_exact q p H1 H2 Hle).
  - intros Hreg Hinit Hwhole Hmax p Hin.
    assert (Hle : Num.fmul (separationAt v parent) (separationAt v parent)
                  <= Glm.length2 (Glm.minus q p)).
    { apply (@query_is_exact bounds pre q (separationAt v parent) Hreg Hwhole Hq);
        [|exact Hn|exact Hin].
      intros p' Hin'.
      apply (@run_contained v bounds initialSet k g fuel out Hreg Hinit H).
      rewrite Heq. apply in_or_app. left. exact Hin'. }
    split; [exact Hle|].
    destruct (whole_zero_or_one Hwhole) as [E|E].
    + rewrite E. unfold sqDistance.
      pose proof (NumFacts.Qsquare_nonneg (vx q - vx p)).
      pose proof (NumFacts.Qsquare_nonneg (vy q - vy p)).
      lra.
    + exact (GridFacts.length2_exact q p E Hmax Hle).
Qed.



(** C8, as amended: with the random source held fixed, a run with [k <= 0]
    returns, and no run with another [k] returns fewer points than it;
    the numbers of points of two runs with positive [k] are not ordered. *)
Theorem nonpositive_k_is_least (Hrange : randInt_in_range G) (v : Variant)
        (bounds : Rectf.t) (initialSet : list vec2) (k1 k2 : Z) (g : G)
        (fuel2 : nat) (out2 : list vec2) :
  (k1 <= 0)%Z ->
  run v bounds initialSet k2 g fuel2 = Returned out2 ->
  exists out1,
    run v bounds initialSet k1 g (length (seeds bounds initialSet)) = Returned out1
    /\ (length out1 <= length out2)%nat.
Proof.
  intros Hk H2. exists (seeds bounds initialSet). split.
  - apply nonpositive_k_drains; [exact Hrange | exact Hk | apply Nat.le_refl].
  - assert (Hp : produced (run v bounds initialSet k2 g fuel2) = Some out2)
      by (rewrite H2; reflexivity).
    destruct (run_produced _ _ _ _ _ _ Hp) as [(gen & ->) _].
    rewrite length_app. lia.
Qed.


(** C9: the constant-separation entry point returns what the function entry
    point returns on the constant function, and the function entry point
    returns what the predicate entry point returns on the always-true
    predicate, for every input, every random source and every bound on the
    number of iterations. *)
Theorem entry_points_agree (separation : Q) (distFunction : vec2 -> Q)
        (bounds : Rectf.t) (initialSet : list vec2) (k : Z) (g : G) (fuel : nat) :
  poissonDiskDistribution separation bounds initialSet k g fuel
  = poissonDiskDistribution_dist (fun _ => separation) bounds initialSet k g fuel
  /\ poissonDiskDistribution_dist distFunction bounds initialSet k g fuel
     = poissonDiskDistribution_bounds distFunction (fun _ => true)
                                      bounds initialSet k g fuel.
Proof.
  split.
  - apply loop_as_dist.
  - apply loop_dist_as_bounds.
Qed.

End SamplerFacts.

(* ------------------------------------------------------------------------- *)
(** ** Concrete runs on the scripted random source *)

Module Runs.

(** The scripted source honours the contract of [randInt]. *)
Lemma script_in_range : @randInt_in_range Script.t Script.source.
Proof.
  intros a b g Hab. simpl. unfold Script.script_randInt.
  destruct (Z.leb_spec (b - a) 0) as [H|H]; simpl; [lia|].
  destruct (Script.next g) as [raw g']. simpl.
  pose proof (Z.mod_pos_bound raw (b - a) H). lia.
Qed.


(** C1, as stated, fails twice.  On two initial points: with separation 10
    and [k = 0] the run returns the initial set [(5,5); (6,5)], two points at
    distance 1.  On a generated point: with separation [43/4] on the domain
    [(0,0)-(30,100)], initial points [(11/4,50)] and [(24,50)], [k = 1] and
    a source that draws zeros, the run returns the candidate [(27/2,50)],
    generated from [(11/4,50)], at distance [21/2] of [(24,50)]. *)
Lemma separation_is_not_kept :
  (Script.sampler 10 Script.square100 [mkVec2 5 5; mkVec2 6 5] 0 [] 2
   = Returned [mkVec2 5 5; mkVec2 6 5]
   /\ Glm.length2 (Glm.minus (mkVec2 6 5) (mkVec2 5 5)) < 10 * 10)
  /\ (exists out,
        Script.sampler (43 # 4) Script.strip30
                       [mkVec2 (11 # 4) 50; mkVec2 24 50] 1 [] 3
        = Returned out
        /\ Script.reduced out
           = [mkVec2 (11 # 4) 50; mkVec2 24 50; mkVec2 (27 # 2) 50]
        /\ Glm.length2 (Glm.minus (mkVec2 (27 # 2) 50) (mkVec2 24 50))
           < (43 # 4) * (43 # 4)).
Proof.
  split.
  - split; vm_compute; reflexivity.
  - eexists. split; [vm_compute; reflexivity|].
    split; vm_compute; reflexivity.
Qed.

(** C2, as stated, fails on the seeds: an initial point outside the bounds
    is returned, and so is the seeded centre when [boundsFunction] rejects
    it. *)
Lemma seeds_are_not_tested :
  (Script.sampler 10 Script.square100 [mkVec2 200 200] 0 [] 1
   = Returned [mkVec2 200 200]
   /\ Rectf.contains Script.square100 (mkVec2 200 200) = false)
  /\ (Script.sampler_bounds (fun _ => 10) (fun _ => false) Script.square100 [] 0 [] 1
      = Returned [Rectf.getCenter Script.square100]).
Proof.
  repeat split; vm_compute; reflexivity.
Qed.



(** C8, as stated, fails: on the domain [(0,0)-(94,100)] with separation 10,
    the initial point [(70,50)] and the draws [0,0,0,0,1/2,0,1/2,0] of
    [randFloat], the run with [k = 1] returns three points and the run with
    [k = 2] returns two. *)
Lemma more_candidates_fewer_points :
  Script.sampler 10 Script.strip94 [mkVec2 70 50] 1 Script.script8 3
  = Returned [mkVec2 70 50; mkVec2 80 50; mkVec2 90 50]
  /\ Script.sampler 10 Script.strip94 [mkVec2 70 50] 2 Script.script8 3
     = Returned [mkVec2 70 50; mkVec2 80 50].
Proof.
  split; vm_compute; reflexivity.
Qed.

(** *** The theorems at concrete runs *)


Lemma strip94_run :
  produced (Script.scripted (ConstantSeparation 10) Script.strip94 [Script.p70] 1 Script.script8 3)
  = Some [Script.p70; Script.p80; Script.p90].
Proof. vm_compute. reflexivity. Defined.

Lemma strip94_regular : regularDomain Script.strip94.
Proof.
  unfold regularDomain. vm_compute.
  repeat split; (discriminate || reflexivity).
Defined.

Lemma generated_points_pass_neighbor_query_witness :
  produced (Script.scripted (ConstantSeparation 10) Script.strip94 [Script.p70] 1 Script.script8 3)
  = Some [Script.p70; Script.p80; Script.p90]
  /\ Grid.hasNeighbors (gridOf Script.strip94 [Script.p70; Script.p80]) Script.p90 10 = false
  /\ Num.fmul 10 10 <= Glm.length2 (Glm.minus Script.p90 Script.p80)
  /\ (1 - (1 # 2097152)) * (10 * 10) <= sqDistance Script.p90 Script.p70.
Proof.
  split; [exact strip94_run|].
  destruct (@generated_points_pass_neighbor_query Script.t Script.source Script.trig
              (ConstantSeparation 10) Script.strip94 [Script.p70] 1 Script.script8 3 [Script.p70; Script.p80; Script.p90]
              strip94_run [Script.p70; Script.p80] Script.p90 [] eq_refl)
    as (parent & ga & Hp & Hc & Hn & Hcells & Hall).
  - simpl. lia.
  - cbn [separationAt] in Hn, Hcells, Hall. split; [exact Hn|]. split.
    + apply (Hcells 82%Z Script.p80).
      * vm_compute. tauto.
      * vm_compute. left. reflexivity.
    + apply Hall.
      * exact strip94_regular.
      * intros p [<-|[]]. vm_compute. reflexivity.
      * split; vm_compute; [discriminate | reflexivity].
      * vm_compute. discriminate.
      * left. reflexivity.
Defined.

Lemma generated_points_are_contained_witness :
  produced (Script.scripted (ConstantSeparation 10) Script.strip94 [Script.p70] 1 Script.script8 3)
  = Some [Script.p70; Script.p80; Script.p90]
  /\ Rectf.contains Script.strip94 Script.p80 = true.
Proof.
  split; [exact strip94_run|].
  destruct (@generated_points_are_contained Script.t Script.source Script.trig
              (ConstantSeparation 10) Script.strip94 [Script.p70] 1 Script.script8 3 [Script.p70; Script.p80; Script.p90]
              strip94_run) as (gen & Hgen & Hall).
  simpl in Hgen. injection Hgen as <-.
  apply Hall. left. reflexivity.
Defined.

Lemma initialSet_is_prefix_witness :
  produced (Script.scripted (ConstantSeparation 10) Script.strip94 [Script.p70] 1 Script.script8 3)
  = Some [Script.p70; Script.p80; Script.p90]
  /\ exists gen, [Script.p70; Script.p80; Script.p90] = [Script.p70] ++ gen.
Proof.
  split; [exact strip94_run|].
  exact (proj1 (@initialSet_is_prefix Script.t Script.source Script.trig
                  (ConstantSeparation 10) Script.strip94 [Script.p70] 1 Script.script8 3)
               [Script.p70; Script.p80; Script.p90] strip94_run).
Defined.




Lemma nonpositive_k_is_least_witness :
  Script.scripted (ConstantSeparation 10) Script.strip94 [Script.p70] 1 Script.script8 3
  = Returned [Script.p70; Script.p80; Script.p90]
  /\ exists out1,
       Script.scripted (ConstantSeparation 10) Script.strip94 [Script.p70] 0 Script.script8 1 = Returned out1
       /\ (length out1 <= 3)%nat.
Proof.
  assert (H : Script.scripted (ConstantSeparation 10) Script.strip94 [Script.p70] 1 Script.script8 3
              = Returned [Script.p70; Script.p80; Script.p90]) by (vm_compute; reflexivity).
  split; [exact H|].
  apply (@nonpositive_k_is_least Script.t Script.source Script.trig
           script_in_range (ConstantSeparation 10) Script.strip94 [Script.p70] 0%Z 1%Z Script.script8
           3%nat [Script.p70; Script.p80; Script.p90]).
  - lia.
  - exact H.
Defined.


End Runs.

(* ------------------------------------------------------------------------- *)
(** ** Further properties of the grid *)

Module GridLaws.

Import Grid.

Lemma ceiling_cover (s c : Z) :
  (0 < c)%Z ->
  (c * Qceiling (inject_Z s / inject_Z c) - c < s
   <= c * Qceiling (inject_Z s / inject_Z c))%Z.
Proof.
  intro Hc. rewrite NumFacts.Qceiling_div.
  pose proof (Z.div_mod (- s) c ltac:(lia)) as E.
  pose proof (Z.mod_pos_bound (- s) c Hc) as B.
  nia.
Qed.

(** The quotient rounded up, in integers. *)
Lemma ceiling_quotient (s c : Z) :
  (0 < c)%Z -> Qceiling (inject_Z s / inject_Z c) = ((s + c - 1) / c)%Z.
Proof.
  intro Hc. rewrite NumFacts.Qceiling_div.
  pose proof (Z.div_mod (s + c - 1) c ltac:(lia)) as E.
  pose proof (Z.mod_pos_bound (s + c - 1) c Hc) as B.
  assert (H : (- s / c = - ((s + c - 1) / c))%Z).
  { symmetry. apply Z.div_unique with (r := (c - 1 - (s + c - 1) mod c)%Z).
    - left. lia.
    - nia. }
  lia.
Qed.

(** The layout that [resize] builds, for corners that are [int], extents of
    24 bits at most and cells that can be counted in an [int]. *)
Lemma resize_layout (g0 : t) (a : Area.t) (k : Z) :
  (0 <= k < 31)%Z ->
  (- 2 ^ 31 < Area.x1 a)%Z -> (- 2 ^ 31 < Area.y1 a)%Z ->
  (Area.x2 a < 2 ^ 31)%Z -> (Area.y2 a < 2 ^ 31)%Z ->
  (0 <= Area.x2 a - Area.x1 a <= 2 ^ 24)%Z ->
  (0 <= Area.y2 a - Area.y1 a <= 2 ^ 24)%Z ->
  ((Area.x2 a - Area.x1 a + 2 ^ k - 1) / 2 ^ k
   * ((Area.y2 a - Area.y1 a + 2 ^ k - 1) / 2 ^ k) < 2 ^ 31)%Z ->
  let g := resize g0 a k in
  g = Grid a k
  /\ mBounds g = a /\ mK g = k /\ mCellSize g = (2 ^ k)%Z
  /\ mOffset g = mkIvec2 (Z.abs (Area.x1 a)) (Z.abs (Area.y1 a))
  /\ (2 ^ k * ix (mNumCells g) - 2 ^ k < Area.x2 a - Area.x1 a
      <= 2 ^ k * ix (mNumCells g))%Z
  /\ (2 ^ k * iy (mNumCells g) - 2 ^ k < Area.y2 a - Area.y1 a
      <= 2 ^ k * iy (mNumCells g))%Z
  /\ Z.of_nat (length (mGrid g)) = (ix (mNumCells g) * iy (mNumCells g))%Z
  /\ points g = [].
Proof.
  intros Hk _ _ _ _ Hw Hh Hcells g.
  assert (Hp : (0 < 2 ^ k)%Z) by (apply Z.pow_pos_nonneg; lia).
  assert (Eg : g = Grid a k) by reflexivity.
  pose proof (@GridFacts.Grid_numCells a k Hk ltac:(lia) ltac:(lia)) as En.
  pose proof (ceiling_cover (Area.x2 a - Area.x1 a) Hp) as Cx.
  pose proof (ceiling_cover (Area.y2 a - Area.y1 a) Hp) as Cy.
  assert (Hn : (0 <= ix (mNumCells (Grid a k)) * iy (mNumCells (Grid a k)) < 2 ^ 31)%Z).
  { rewrite En. cbn [ix iy]. split; [nia|].
    rewrite !ceiling_quotient by exact Hp. exact Hcells. }
  rewrite Eg. split; [reflexivity|]. split; [reflexivity|]. split; [reflexivity|].
  split.
  { unfold Grid, resize, resize_k. cbn [mCellSize].
    apply GridFacts.shiftl_cellSize. lia. }
  split; [reflexivity|].
  split; [rewrite En; exact Cx|]. split; [rewrite En; exact Cy|].
  split; [apply GridFacts.Grid_length; exact Hn|].
  unfold points, Grid, resize, resize_k. cbn [mGrid].
  apply GridFacts.repeat_nil_concat.
Qed.

(** X1: [Grid::Grid] and both [Grid::resize] build, from the bounds and [k]
    alone, a grid of cell size [2^k] with offset [|upper-left corner|] and
    [numCells.x * numCells.y] empty cells, where along each axis the cells
    cover the extent of the bounds and one cell fewer would not; whatever the
    grid held before [resize] is gone.  This holds where the types of the
    code hold the values: [k] below 31, corners that are [int], extents of at
    most [2^24], which convert to [float] as they are, and a number of cells
    below [2^31]. *)
Theorem resize_covers_bounds (g0 : t) (a : Area.t) (k : Z) :
  (0 <= k < 31)%Z ->
  (- 2 ^ 31 < Area.x1 a)%Z -> (- 2 ^ 31 < Area.y1 a)%Z ->
  (Area.x2 a < 2 ^ 31)%Z -> (Area.y2 a < 2 ^ 31)%Z ->
  (0 <= Area.x2 a - Area.x1 a <= 2 ^ 24)%Z ->
  (0 <= Area.y2 a - Area.y1 a <= 2 ^ 24)%Z ->
  ((Area.x2 a - Area.x1 a + 2 ^ k - 1) / 2 ^ k
   * ((Area.y2 a - Area.y1 a + 2 ^ k - 1) / 2 ^ k) < 2 ^ 31)%Z ->
  let g := resize g0 a k in
  g = Grid a k
  /\ mBounds g = a /\ mK g = k /\ mCellSize g = (2 ^ k)%Z
  /\ mOffset g = mkIvec2 (Z.abs (Area.x1 a)) (Z.abs (Area.y1 a))
  /\ (2 ^ k * ix (mNumCells g) - 2 ^ k < Area.x2 a - Area.x1 a
      <= 2 ^ k * ix (mNumCells g))%Z
  /\ (2 ^ k * iy (mNumCells g) - 2 ^ k < Area.y2 a - Area.y1 a
      <= 2 ^ k * iy (mNumCells g))%Z
  /\ Z.of_nat (length (mGrid g)) = (ix (mNumCells g) * iy (mNumCells g))%Z
  /\ points g = [].
Proof.
  apply resize_layout.
Qed.

Lemma resize_covers_bounds_witness :
  let g := resize (add (Grid (Area.mk 0 0 16 16) 3) (mkVec2 1 1))
                  (Area.mk (-5) 0 15 9) 3 in
  mNumCells g = mkIvec2 3 2 /\ mOffset g = mkIvec2 5 0 /\ points g = [].
Proof.
  intro g.
  assert (H1 : (0 <= 3 < 31)%Z) by lia.
  assert (H2 : (- 2 ^ 31 < Area.x1 (Area.mk (-5) 0 15 9))%Z) by reflexivity.
  assert (H3 : (- 2 ^ 31 < Area.y1 (Area.mk (-5) 0 15 9))%Z) by reflexivity.
  assert (H4 : (Area.x2 (Area.mk (-5) 0 15 9) < 2 ^ 31)%Z) by reflexivity.
  assert (H5 : (Area.y2 (Area.mk (-5) 0 15 9) < 2 ^ 31)%Z) by reflexivity.
  assert (H6 : (0 <= Area.x2 (Area.mk (-5) 0 15 9) - Area.x1 (Area.mk (-5) 0 15 9)
                <= 2 ^ 24)%Z) by (vm_compute; split; discriminate).
  assert (H7 : (0 <= Area.y2 (Area.mk (-5) 0 15 9) - Area.y1 (Area.mk (-5) 0 15 9)
                <= 2 ^ 24)%Z) by (vm_compute; split; discriminate).
  assert (H8 : ((Area.x2 (Area.mk (-5) 0 15 9) - Area.x1 (Area.mk (-5) 0 15 9)
                 + 2 ^ 3 - 1) / 2 ^ 3
                * ((Area.y2 (Area.mk (-5) 0 15 9) - Area.y1 (Area.mk (-5) 0 15 9)
                    + 2 ^ 3 - 1) / 2 ^ 3) < 2 ^ 31)%Z) by reflexivity.
  destruct (@resize_covers_bounds (add (Grid (Area.mk 0 0 16 16) 3) (mkVec2 1 1))
              (Area.mk (-5) 0 15 9) 3 H1 H2 H3 H4 H5 H6 H7 H8)
    as (_ & _ & _ & _ & Hoff & Hx & Hy & _ & Hpts).
  fold g in Hoff, Hx, Hy, Hpts.
  split; [|split; [exact Hoff | exact Hpts]].
  vm_compute. reflexivity.
Defined.

Lemma push_back_at_count (j : nat) (p : vec2) (cells : list Cell) :
  (j < length cells)%nat ->
  length (concat (push_back_at j p cells)) = S (length (concat cells)).
Proof.
  revert j. induction cells as [|c cells IH]; intros j Hj; simpl in Hj.
  - lia.
  - destruct j as [|j]; simpl; rewrite !length_app.
    + simpl. lia.
    + rewrite IH by lia. lia.
Qed.

(** X2: [Grid::add] either appends the point to the grid or leaves the grid
    as it is: when the flat index, an [int], lies in the vector of cells the
    grid holds one point more, in the cell of that index; otherwise (the
    branch that logs "Out of bounds", taken for a negative index as well) the
    grid is unchanged; in both cases the layout is kept and every point stays
    in its cell. *)
Theorem add_appends_or_drops (g : t) (p : vec2) :
  (Z.of_nat (length (mGrid g)) < 2 ^ 63)%Z ->
  ((0 <= cellIndex g p < Z.of_nat (length (mGrid g)))%Z ->
   length (points (add g p)) = S (length (points g))
   /\ In p (cellAt (add g p) (cellIndex g p)))
  /\ ((cellIndex g p < 0 \/ Z.of_nat (length (mGrid g)) <= cellIndex g p)%Z ->
      add g p = g)
  /\ mNumCells (add g p) = mNumCells g
  /\ mOffset (add g p) = mOffset g
  /\ length (mGrid (add g p)) = length (mGrid g)
  /\ (forall j q, In q (cellAt g j) -> In q (cellAt (add g p) j)).
Proof.
  intros Hlen.
  assert (Hj : (- 2 ^ 31 <= cellIndex g p < 2 ^ 31)%Z)
    by (unfold cellIndex; apply NumFacts.to_int32_range).
  destruct (GridFacts.add_static g p) as (A1 & A2 & _ & _ & _ & A6).
  split; [|split; [|split; [exact A1|split; [exact A2|split; [exact A6|]]]]].
  - intro Hin. split.
    + unfold add, points.
      assert (Hs : (Num.to_size_t (cellIndex g p) <? Z.of_nat (length (mGrid g)))%Z = true).
      { apply Z.ltb_lt. unfold Num.to_size_t. rewrite Z.mod_small; lia. }
      rewrite Hs. cbn [mGrid]. apply push_back_at_count. lia.
    + rewrite GridFacts.add_cellAt by exact Hin.
      rewrite Z.eqb_refl. apply in_or_app. right. left. reflexivity.
  - intro Hout. unfold add.
    assert (Hs : (Num.to_size_t (cellIndex g p) <? Z.of_nat (length (mGrid g)))%Z = false).
    { apply Z.ltb_ge. unfold Num.to_size_t.
      destruct Hout as [Hneg|Hbig].
      - replace (cellIndex g p) with ((cellIndex g p + 2 ^ 64) + (- 1) * 2 ^ 64)%Z by ring.
        rewrite Z.mod_add by lia. rewrite Z.mod_small; lia.
      - rewrite Z.mod_small; lia. }
    rewrite Hs. reflexivity.
  - intros j q. apply GridFacts.add_keeps.
Qed.

Lemma add_appends_or_drops_witness :
  let g := Grid (Area.mk 8 8 24 24) 3 in
  add g (mkVec2 9 9) = g
  /\ length (points (add (Grid (Area.mk 0 0 16 16) 3) (mkVec2 9 9))) = 1%nat.
Proof.
  intro g. split.
  - refine (proj1 (proj2 (@add_appends_or_drops g (mkVec2 9 9) _)) _).
    + vm_compute. reflexivity.
    + vm_compute. right. congruence.
  - refine (proj1 (proj1 (@add_appends_or_drops (Grid (Area.mk 0 0 16 16) 3)
                            (mkVec2 9 9) _) _)).
    + vm_compute. reflexivity.
    + vm_compute. split; congruence.
Defined.





Lemma shifted_rows (y1 y2 : Z) :
  (0 < y1 <= y2)%Z -> (y2 + 8 <= 3 * y1)%Z ->
  (Qceiling (inject_Z (y2 - y1) / inject_Z 8) <= (2 * y1) / 8)%Z.
Proof.
  intros H1 H2. rewrite NumFacts.Qceiling_div.
  Z.to_euclidean_division_equations. lia.
Qed.

Lemma floor_above (c : Q) (z : Z) : inject_Z z <= c -> (z <= Qfloor c)%Z.
Proof.
  intro H. rewrite <- (Qfloor_Z z). apply Qfloor_resp_le. exact H.
Qed.

(** A point below the rows of a domain shifted away from the origin is
    dropped by [add]. *)
Lemma add_shifted (a : Area.t) (p : vec2) :
  (0 <= Area.x1 a <= Area.x2 a)%Z -> (0 < Area.y1 a <= Area.y2 a)%Z ->
  (Area.y2 a + 8 <= 3 * Area.y1 a)%Z ->
  (Area.x2 a < 65536)%Z -> (Area.y2 a < 65536)%Z ->
  0 <= vx p -> inject_Z (Area.y1 a) <= vy p ->
  (Num.Qtrunc (vx p) < 65536)%Z -> (Num.Qtrunc (vy p) < 65536)%Z ->
  add (Grid a 3) p = Grid a 3.
Proof.
  intros Hx Hy Hshift Bx By Hpx Hpy Tx Ty.
  assert (Hpy0 : 0 <= vy p).
  { apply Qle_trans with (inject_Z (Area.y1 a)); [|exact Hpy].
    unfold Qle. simpl. lia. }
  pose proof (GridFacts.floor_nonneg Hpx) as Fx.
  pose proof (floor_above Hpy) as Fy.
  rewrite (NumFacts.Qtrunc_nonneg Hpx) in Tx.
  rewrite (NumFacts.Qtrunc_nonneg Hpy0) in Ty.
  assert (Hcells : ((Area.x2 a - Area.x1 a + 2 ^ 3 - 1) / 2 ^ 3
                    * ((Area.y2 a - Area.y1 a + 2 ^ 3 - 1) / 2 ^ 3) < 2 ^ 31)%Z).
  { change (2 ^ 3)%Z with 8%Z. change (2 ^ 31)%Z with 2147483648%Z.
    assert (0 <= (Area.x2 a - Area.x1 a + 8 - 1) / 8 <= 8193)%Z
      by (split; [apply Z.div_pos | apply Z.div_le_upper_bound]; lia).
    assert (0 <= (Area.y2 a - Area.y1 a + 8 - 1) / 8 <= 8193)%Z
      by (split; [apply Z.div_pos | apply Z.div_le_upper_bound]; lia).
    nia. }
  destruct (@resize_layout (Grid a 3) a 3) as
      (_ & _ & _ & _ & Hoff & Cx & Cy & Hlen & _);
    try exact Hcells; try (change (2 ^ 31)%Z with 2147483648%Z;
                           change (2 ^ 24)%Z with 16777216%Z; lia).
  change (resize (Grid a 3) a 3) with (Grid a 3) in Hoff, Cx, Cy, Hlen.
  assert (Hrows : (iy (mNumCells (Grid a 3)) <= (2 * Area.y1 a) / 8)%Z).
  { rewrite GridFacts.Grid_numCells
      by (change (2 ^ 24)%Z with 16777216%Z; lia).
    cbn [iy]. exact (@shifted_rows (Area.y1 a) (Area.y2 a) Hy Hshift). }
  assert (Hcol : (0 <= (Qfloor (vx p) + Area.x1 a) / 8 < 16384)%Z)
    by (split; [apply Z.div_pos | apply Z.div_lt_upper_bound]; lia).
  assert (Hrow : ((2 * Area.y1 a) / 8 <= (Qfloor (vy p) + Area.y1 a) / 8 < 16384)%Z)
    by (split; [apply Z.div_le_mono | apply Z.div_lt_upper_bound]; lia).
  assert (Hnx : (0 <= ix (mNumCells (Grid a 3)) <= 8192)%Z).
  { change (2 ^ 3)%Z with 8%Z in Cx. lia. }
  assert (Hny : (0 <= iy (mNumCells (Grid a 3)))%Z).
  { change (2 ^ 3)%Z with 8%Z in Cy. lia. }
  assert (Hidx : cellIndex (Grid a 3) p
                 = ((Qfloor (vx p) + Area.x1 a) / 8
                    + ix (mNumCells (Grid a 3)) * ((Qfloor (vy p) + Area.y1 a) / 8))%Z).
  { unfold cellIndex. rewrite Hoff. cbn [ix iy].
    change (mK (Grid a 3)) with 3%Z.
    rewrite !NumFacts.axis_index_trunc;
      rewrite ?(NumFacts.Qtrunc_nonneg Hpx), ?(NumFacts.Qtrunc_nonneg Hpy0),
        ?Z.abs_eq; try (change (2 ^ 31)%Z with 2147483648%Z; lia).
    change (2 ^ 3)%Z with 8%Z.
    apply NumFacts.to_int32_small.
    set (c := ((Qfloor (vx p) + Area.x1 a) / 8)%Z) in *.
    set (r := ((Qfloor (vy p) + Area.y1 a) / 8)%Z) in *.
    set (nx := ix (mNumCells (Grid a 3))) in *.
    clearbody c r nx. change (2 ^ 31)%Z with 2147483648%Z. nia. }
  unfold add.
  assert (Hs : (Num.to_size_t (cellIndex (Grid a 3) p)
                <? Z.of_nat (length (mGrid (Grid a 3))))%Z = false).
  { apply Z.ltb_ge. rewrite Hlen, Hidx. unfold Num.to_size_t.
    set (c := ((Qfloor (vx p) + Area.x1 a) / 8)%Z) in *.
    set (r := ((Qfloor (vy p) + Area.y1 a) / 8)%Z) in *.
    set (nx := ix (mNumCells (Grid a 3))) in *.
    set (ny := iy (mNumCells (Grid a 3))) in *.
    clearbody c r nx ny.
    assert (0 <= c + nx * r < 2 ^ 64)%Z.
    { change (2 ^ 64)%Z with 18446744073709551616%Z. nia. }
    rewrite Z.mod_small by assumption. nia. }
  rewrite Hs. reflexivity.
Qed.

(** X6: on a domain whose origin is not at [(0,0)] the offset
    [|upper-left corner|] is added to coordinates that already contain the
    origin: when the rows start at [y1 > 0] with [3 * y1 >= y2 + 8], every
    point of non-negative abscissa at or below the first row falls outside
    the vector of cells, [Grid::add] drops it, the grid stays empty and
    [Grid::hasNeighbors] answers false to every query.  The corners and the
    coordinates are taken below 65536, where no integer of the code wraps. *)
Theorem shifted_domain_grid_stays_empty (a : Area.t) (l : list vec2) :
  (0 <= Area.x1 a <= Area.x2 a)%Z -> (0 < Area.y1 a <= Area.y2 a)%Z ->
  (Area.y2 a + 8 <= 3 * Area.y1 a)%Z ->
  (Area.x2 a < 65536)%Z -> (Area.y2 a < 65536)%Z ->
  (forall p, In p l ->
             0 <= vx p /\ inject_Z (Area.y1 a) <= vy p
             /\ (Num.Qtrunc (vx p) < 65536)%Z /\ (Num.Qtrunc (vy p) < 65536)%Z) ->
  fold_left add l (Grid a 3) = Grid a 3
  /\ forall q radius, hasNeighbors (fold_left add l (Grid a 3)) q radius = false.
Proof.
  intros Hx Hy Hshift Bx By Hl.
  assert (E : fold_left add l (Grid a 3) = Grid a 3).
  { induction l as [|p l IH]; simpl; [reflexivity|].
    destruct (Hl p (or_introl eq_refl)) as (P1 & P2 & P3 & P4).
    rewrite (@add_shifted a p Hx Hy Hshift Bx By P1 P2 P3 P4).
    apply IH. intros p' Hp'. apply Hl. right. exact Hp'. }
  split; [exact E|].
  intros q radius. rewrite E.
  destruct (hasNeighbors (Grid a 3) q radius) eqn:En; [|reflexivity].
  apply GridFacts.hasNeighbors_true_iff in En.
  destruct En as (j & q' & _ & Hq & _).
  apply GridFacts.cellAt_points in Hq.
  exfalso. exact (GridFacts.Grid_points _ _ _ Hq).
Qed.

Lemma shifted_domain_grid_stays_empty_witness :
  let a := Area.mk 0 100 100 200 in
  let l := [mkVec2 50 150; mkVec2 51 150] in
  fold_left add l (Grid a 3) = Grid a 3
  /\ hasNeighbors (fold_left add l (Grid a 3)) (mkVec2 50 150) 10 = false.
Proof.
  intros a l.
  assert (H1 : (0 <= Area.x1 a <= Area.x2 a)%Z) by (vm_compute; split; congruence).
  assert (H2 : (0 < Area.y1 a <= Area.y2 a)%Z) by (vm_compute; split; congruence).
  assert (H3 : (Area.y2 a + 8 <= 3 * Area.y1 a)%Z) by (vm_compute; congruence).
  assert (H4 : (Area.x2 a < 65536)%Z) by (vm_compute; congruence).
  assert (H5 : (Area.y2 a < 65536)%Z) by (vm_compute; congruence).
  assert (H6 : forall p, In p l ->
             0 <= vx p /\ inject_Z (Area.y1 a) <= vy p
             /\ (Num.Qtrunc (vx p) < 65536)%Z /\ (Num.Qtrunc (vy p) < 65536)%Z).
  { intros p [<-|[<-|[]]]; vm_compute; repeat split; congruence. }
  destruct (@shifted_domain_grid_stays_empty a l H1 H2 H3 H4 H5 H6) as [E Hn].
  split; [exact E | apply Hn].
Defined.

Lemma scanWindow_add (g : t) (q p : vec2) (radius : Q) :
  scanWindow (add g q) p radius = scanWindow g p radius.
Proof.
  destruct (GridFacts.add_static g q) as (A1 & A2 & A3 & A4 & _).
  unfold scanWindow, minCell, maxCell. rewrite A1, A2, A3, A4. reflexivity.
Qed.

(** X13: points are never removed from the grid, so an answer of
    [Grid::hasNeighbors] never goes back from true to false: a query that
    finds a neighbour still finds one after any further [Grid::add]. *)
Theorem hasNeighbors_stays_true (g : t) (l : list vec2) (p : vec2) (radius : Q) :
  hasNeighbors g p radius = true ->
  hasNeighbors (fold_left add l g) p radius = true.
Proof.
  revert g. induction l as [|q l IH]; intros g H; simpl; [exact H|].
  apply IH. apply GridFacts.hasNeighbors_true_iff in H.
  destruct H as (j & c & Hj & Hc & Hlt).
  apply GridFacts.hasNeighbors_true_iff. exists j, c.
  rewrite scanWindow_add. split; [exact Hj|]. split; [|exact Hlt].
  apply GridFacts.add_keeps. exact Hc.
Qed.

Lemma hasNeighbors_stays_true_witness :
  hasNeighbors (fold_left add [mkVec2 9 9; mkVec2 1 2]
                          (add (Grid (Area.mk 0 0 20 20) 3) (mkVec2 1 1)))
               (mkVec2 2 2) 3
  = true.
Proof.
  apply (@hasNeighbors_stays_true (add (Grid (Area.mk 0 0 20 20) 3) (mkVec2 1 1))
           [mkVec2 9 9; mkVec2 1 2] (mkVec2 2 2) 3).
  vm_compute. reflexivity.
Defined.

End GridLaws.

(* ------------------------------------------------------------------------- *)
(** ** Further properties of the samplers *)

Section SamplerLaws.

Context {G : Type} {RS : RandomSource G} {TR : Trig}.

Let St : Type := State G.

(** The [for] loop appends the same points to both lists. *)
Lemma spawn_bounds_appends (n : nat) (dist : Q) (boundsFunction : vec2 -> bool)
      (bounds : Rectf.t) (center : vec2) (st : St) :
  let st' := spawn_bounds n dist boundsFunction bounds center st in
  exists gen,
    processingList st' = processingList st ++ gen
    /\ outputList st' = outputList st ++ gen.
Proof.
  revert st. induction n as [|n IH]; intro st; simpl.
  - exists []. rewrite !app_nil_r. auto.
  - destruct (randFloat (rng st)) as [u1 g1].
    destruct (randFloat g1) as [u2 g2].
    set (q := candidate center dist u1 u2).
    destruct (Rectf.contains bounds q && boundsFunction q
              && negb (Grid.hasNeighbors (grid st) q dist)).
    + destruct (IH (accept q (with_rng st g2))) as (gen & H1 & H2).
      exists (q :: gen). rewrite H1, H2. simpl. rewrite <- !app_assoc. auto.
    + apply (IH (with_rng st g2)).
Qed.

Lemma loop_bounds_done (distFunction : vec2 -> Q) (boundsFunction : vec2 -> bool)
      (bounds : Rectf.t) (k : Z) (fuel : nat) (st : St) :
  processingList st = [] ->
  loop_bounds fuel distFunction boundsFunction bounds k st
  = Returned (outputList st).
Proof.
  intro H. destruct fuel; simpl; rewrite H; reflexivity.
Qed.

(** A loop that returns made as many iterations as its output list grew
    beyond the points already processed. *)
Lemma loop_bounds_count (distFunction : vec2 -> Q) (boundsFunction : vec2 -> bool)
      (bounds : Rectf.t) (k : Z) (fuel : nat) :
  forall (st : St) (out : list vec2),
    loop_bounds fuel distFunction boundsFunction bounds k st = Returned out ->
    exists n,
      (n <= fuel)%nat
      /\ (length out + length (processingList st)
          = length (outputList st) + n)%nat
      /\ (forall m, (n <= m)%nat ->
                    loop_bounds m distFunction boundsFunction bounds k st
                    = Returned out)
      /\ (forall m, (m < n)%nat ->
                    exists st',
                      loop_bounds m distFunction boundsFunction bounds k st
                      = OutOfFuel st').
Proof.
  induction fuel as [|fuel IH]; intros st out H.
  - simpl in H. destruct (processingList st) as [|p l] eqn:Hpl; [|discriminate].
    injection H as <-. exists O. simpl.
    split; [lia|]. split; [lia|]. split.
    + intros m _. apply loop_bounds_done. exact Hpl.
    + intros m Hm. lia.
  - simpl in H. destruct (processingList st) as [|p l] eqn:Hpl.
    + injection H as <-. exists O. simpl.
      split; [lia|]. split; [lia|]. split.
      * intros m _. apply loop_bounds_done. exact Hpl.
      * intros m Hm. lia.
    + destruct (randInt 0 (Z.of_nat (length (p :: l)) - 1) (rng st)) as [i g1] eqn:Hi.
      destruct (pick (p :: l) i) as [[center rest]|] eqn:Hpick; [|discriminate].
      set (st0 := mkState rest (outputList st) (grid st) g1) in *.
      destruct (spawn_bounds_appends (Z.to_nat k) (distFunction center)
                  boundsFunction bounds center st0) as (gen & G1 & G2).
      destruct (IH _ _ H) as (n & Hn & Hc & Hge & Hlt).
      destruct (pick_Some _ _ Hpick) as (_ & _ & Hlen).
      rewrite G1, G2 in Hc. simpl in Hc. rewrite !length_app in Hc.
      exists (S n). split; [lia|]. split; [simpl in Hlen |- *; lia|].
      split.
      * intros m Hm. destruct m as [|m]; [lia|].
        simpl. rewrite Hpl, Hi, Hpick. apply Hge. lia.
      * intros m Hm. destruct m as [|m].
        -- exists st. simpl. rewrite Hpl. reflexivity.
        -- simpl. rewrite Hpl, Hi, Hpick. apply Hlt. lia.
Qed.

(** X7: every output point is processed exactly once: a run that returns
    has made exactly as many iterations of the [while] loop as it returns
    points; with that many iterations allowed it returns the same list, and
    with fewer it is still running. *)
Theorem iterations_equal_output_points (v : Variant) (bounds : Rectf.t)
        (initialSet : list vec2) (k : Z) (g : G) (fuel : nat) (out : list vec2) :
  run v bounds initialSet k g fuel = Returned out ->
  (length out <= fuel)%nat
  /\ run v bounds initialSet k g (length out) = Returned out
  /\ forall m, (m < length out)%nat ->
               exists st', run v bounds initialSet k g m = OutOfFuel st'.
Proof.
  intro H. rewrite run_as_bounds in H.
  destruct (loop_bounds_count _ _ _ _ _ _ H) as (n & Hn & Hc & Hge & Hlt).
  destruct (initialise_seeds bounds initialSet g) as (H1 & H2 & _).
  rewrite H1, H2 in Hc.
  assert (En : n = length out) by lia. subst n.
  split; [exact Hn|]. split.
  - rewrite run_as_bounds. apply Hge. apply Nat.le_refl.
  - intros m Hm. rewrite run_as_bounds. apply Hlt. exact Hm.
Qed.

(** A loop stopped by the bound has made every iteration allowed. *)
Lemma loop_bounds_pending (distFunction : vec2 -> Q) (boundsFunction : vec2 -> bool)
      (bounds : Rectf.t) (k : Z) (fuel : nat) :
  forall (st st' : St),
    loop_bounds fuel distFunction boundsFunction bounds k st = OutOfFuel st' ->
    processingList st' <> []
    /\ (length (outputList st') + length (processingList st)
        = length (outputList st) + length (processingList st') + fuel)%nat.
Proof.
  induction fuel as [|fuel IH]; intros st st' H; simpl in H.
  - destruct (processingList st) as [|p l] eqn:Hpl; [discriminate|].
    injection H as <-. rewrite Hpl. split; [discriminate | lia].
  - destruct (processingList st) as [|p l] eqn:Hpl; [discriminate|].
    destruct (randInt 0 (Z.of_nat (length (p :: l)) - 1) (rng st)) as [i g1].
    destruct (pick (p :: l) i) as [[center rest]|] eqn:Hpick; [|discriminate].
    destruct (spawn_bounds_appends (Z.to_nat k) (distFunction center)
                boundsFunction bounds center
                (mkState rest (outputList st) (grid st) g1)) as (gen & G1 & G2).
    destruct (IH _ _ H) as (Hne & Hc).
    destruct (pick_Some _ _ Hpick) as (_ & _ & Hlen).
    rewrite G1, G2 in Hc. simpl in Hc. rewrite !length_app in Hc.
    split; [exact Hne|]. simpl in Hlen |- *. lia.
Qed.

(** *** Termination on regular domains *)

(** Two points of one pixel have a [length2] of 2 at most. *)
Lemma same_pixel_close (p q : vec2) :
  pixel p = pixel q -> Glm.length2 (Glm.minus q p) <= 2.
Proof.
  unfold pixel. intro H. injection H as Hx Hy.
  pose proof (Qfloor_le (vx p)) as A1. pose proof (Qlt_floor (vx p)) as A2.
  pose proof (Qfloor_le (vy p)) as B1. pose proof (Qlt_floor (vy p)) as B2.
  pose proof (Qfloor_le (vx q)) as C1. pose proof (Qlt_floor (vx q)) as C2.
  pose proof (Qfloor_le (vy q)) as D1. pose proof (Qlt_floor (vy q)) as D2.
  rewrite inject_Z_plus in A2, B2, C2, D2. rewrite Hx in *. rewrite Hy in *.
  simpl in A2, B2, C2, D2.
  set (fx := inject_Z (Qfloor (vx q))) in *.
  set (fy := inject_Z (Qfloor (vy q))) in *.
  clearbody fx fy. change (inject_Z 1) with 1 in *.
  assert (R : forall a b, - (1) <= a - b -> a - b <= 1 ->
                          Num.fmul (Num.fsub a b) (Num.fsub a b) <= 1).
  { intros a b L U. unfold Num.fsub.
    assert (L' : - (1) <= Num.fl32 (a - b)).
    { change (- (1)) with (Num.fl32 (- (1))) at 1.
      apply FloatFacts.fl32_mono. exact L. }
    assert (U' : Num.fl32 (a - b) <= 1).
    { change 1 with (Num.fl32 1) at 1. apply FloatFacts.fl32_mono. exact U. }
    unfold Num.fmul. change 1 with (Num.fl32 1) at 1.
    apply FloatFacts.fl32_mono. nra. }
  pose proof (R (vx q) (vx p) ltac:(lra) ltac:(lra)) as Ex.
  pose proof (R (vy q) (vy p) ltac:(lra) ltac:(lra)) as Ey.
  unfold Glm.length2, Glm.minus, Num.fadd. cbn [vx vy].
  change 2 with (Num.fl32 2) at 1. apply FloatFacts.fl32_mono. lra.
Qed.

Lemma distinct_pixels (gen : list vec2) :
  (forall g1 q g2, gen = g1 ++ q :: g2 ->
                   forall p, In p g1 -> pixel p <> pixel q) ->
  NoDup (map pixel gen).
Proof.
  induction gen as [|q gen IH]; intro H; simpl.
  - constructor.
  - constructor.
    + intro Hin. apply in_map_iff in Hin. destruct Hin as (p & Hp & Hin).
      apply in_split in Hin. destruct Hin as (a & b & ->).
      apply (H (q :: a) p b eq_refl q); [left; reflexivity | congruence].
    + apply IH. intros g1 x g2 -> p Hp.
      apply (H (q :: g1) x g2 eq_refl p). right. exact Hp.
Qed.

Lemma pixels_length (w h : Z) :
  (0 <= w)%Z -> (0 <= h)%Z ->
  Z.of_nat (length (pixels w h)) = ((w + 1) * (h + 1))%Z.
Proof.
  intros Hw Hh. unfold pixels, Grid.zrange.
  rewrite length_prod, !length_map, !length_seq. lia.
Qed.

Lemma pixel_in_pixels (bounds : Rectf.t) (p : vec2) :
  regularDomain bounds ->
  Rectf.contains bounds p = true ->
  In (pixel p)
     (pixels (Num.Qtrunc (Rectf.x2 bounds)) (Num.Qtrunc (Rectf.y2 bounds))).
Proof.
  intros Hreg Hc.
  destruct (@contains_regular bounds p Hreg Hc) as (Hx & Hy & Fx & Fy).
  pose proof (GridFacts.floor_nonneg Hx). pose proof (GridFacts.floor_nonneg Hy).
  unfold pixels, pixel. apply in_prod; apply GridFacts.in_zrange; lia.
Qed.

(** On a regular domain with whole separations of 2 at least, the generated
    points have pixels of their own. *)
Lemma regular_output_bound (v : Variant) (bounds : Rectf.t)
      (initialSet : list vec2) (k : Z) (g : G) (fuel : nat) (out : list vec2) :
  regularDomain bounds ->
  (forall p, In p initialSet -> Rectf.contains bounds p = true) ->
  (forall p, wholeSeparation (separationAt v p) /\ 2 <= separationAt v p) ->
  produced (run v bounds initialSet k g fuel) = Some out ->
  (length out
   <= length (seeds bounds initialSet)
      + length (pixels (Num.Qtrunc (Rectf.x2 bounds))
                       (Num.Qtrunc (Rectf.y2 bounds))))%nat.
Proof.
  intros Hreg Hinit Hsep H.
  pose proof (@run_contained G RS TR v bounds initialSet k g fuel out Hreg Hinit H)
    as Hall.
  destruct (run_produced _ _ _ _ _ _ H) as [_ Hacc].
  destruct (run_generated _ _ _ _ _ _ H) as (gen & Hgen & Hg).
  subst out. rewrite length_app. apply Nat.add_le_mono_l.
  rewrite <- (length_map pixel gen).
  apply NoDup_incl_length.
  - apply distinct_pixels. intros g1 q g2 -> p Hp Hpix.
    destruct (Hacc (seeds bounds initialSet ++ g1) q g2)
      as (Hq & _ & parent & ga & _ & _ & Hn).
    + rewrite <- app_assoc. reflexivity.
    + rewrite length_app. lia.
    + destruct (Hsep parent) as [Hw H2].
      assert (Hd : Num.fmul (separationAt v parent) (separationAt v parent)
                   <= Glm.length2 (Glm.minus q p)).
      { apply (@query_is_exact bounds (seeds bounds initialSet ++ g1) q
                 (separationAt v parent) Hreg Hw Hq); [|exact Hn|].
        - intros x Hx. apply Hall. rewrite app_assoc.
          apply in_or_app. left. exact Hx.
        - apply in_or_app. right. exact Hp. }
      pose proof (same_pixel_close Hpix) as Hclose.
      assert (H4 : 4 <= Num.fmul (separationAt v parent) (separationAt v parent)).
      { unfold Num.fmul. change 4 with (Num.fl32 4) at 1.
        apply FloatFacts.fl32_mono. nra. }
      lra.
  - intros x Hx. apply in_map_iff in Hx. destruct Hx as (p & <- & Hp).
    apply pixel_in_pixels; [exact Hreg|]. apply Hg. exact Hp.
Qed.

(** X8: on a domain with origin [(0,0)] whose integer extents [W] and [H]
    are below 65536 and not multiples of 8, with [initialSet] in the domain
    and separations that are whole numbers of 2 at least, every run
    terminates: under the contract of [randInt] it returns within
    [|seeds| + (W+1)(H+1)] iterations, and it returns at most that many
    points. *)
Theorem regular_domain_run_returns (Hrange : randInt_in_range G) (v : Variant)
        (bounds : Rectf.t) (initialSet : list vec2) (k : Z) (g : G) (fuel : nat) :
  regularDomain bounds ->
  (forall p, In p initialSet -> Rectf.contains bounds p = true) ->
  (forall p, wholeSeparation (separationAt v p) /\ 2 <= separationAt v p) ->
  (Z.of_nat (length (seeds bounds initialSet))
   + (Num.Qtrunc (Rectf.x2 bounds) + 1) * (Num.Qtrunc (Rectf.y2 bounds) + 1)
   <= Z.of_nat fuel)%Z ->
  exists out,
    run v bounds initialSet k g fuel = Returned out
    /\ (Z.of_nat (length out)
        <= Z.of_nat (length (seeds bounds initialSet))
           + (Num.Qtrunc (Rectf.x2 bounds) + 1) * (Num.Qtrunc (Rectf.y2 bounds) + 1))%Z.
Proof.
  intros Hreg Hinit Hsep Hfuel.
  assert (Hpix : Z.of_nat (length (pixels (Num.Qtrunc (Rectf.x2 bounds))
                                          (Num.Qtrunc (Rectf.y2 bounds))))
                 = ((Num.Qtrunc (Rectf.x2 bounds) + 1)
                    * (Num.Qtrunc (Rectf.y2 bounds) + 1))%Z).
  { destruct Hreg as (_ & _ & Hx2 & Hy2 & _).
    apply pixels_length; rewrite NumFacts.Qtrunc_nonneg by assumption;
      apply GridFacts.floor_nonneg; assumption. }
  pose proof (fun out => @regular_output_bound v bounds initialSet k g fuel out
                           Hreg Hinit Hsep) as Hbound.
  destruct (run v bounds initialSet k g fuel) as [out|st'|] eqn:E.
  - exists out. split; [reflexivity|].
    specialize (Hbound out eq_refl). lia.
  - exfalso. specialize (Hbound (outputList st') eq_refl).
    rewrite run_as_bounds in E.
    destruct (loop_bounds_pending _ _ _ _ _ _ E) as (Hne & Hc).
    destruct (initialise_seeds bounds initialSet g) as (H1 & H2 & _).
    rewrite H1, H2 in Hc.
    assert (0 < length (processingList st'))%nat
      by (destruct (processingList st'); [congruence | simpl; lia]).
    lia.
  - exfalso. rewrite run_as_bounds in E.
    exact (@loop_bounds_no_fault G RS TR Hrange (separationAt v) (admissible v)
                                 bounds k fuel _ E).
Qed.

(** *** Runs that never return, runs that return the seeds *)

(** X9: a separation that is zero everywhere makes every run with [k >= 1]
    endless, whatever the random source: when the seeds lie in the bounds and
    [boundsFunction] accepts the points of the bounds, each candidate is the
    point being processed, no neighbour is closer than zero, and the
    processing list never empties.  The initial points are values of
    [float], as the points that the code is given are. *)
Theorem zero_separation_run_is_endless (v : Variant) (bounds : Rectf.t)
        (initialSet : list vec2) (k : Z) (g : G) :
  (forall p, separationAt v p == 0) ->
  (forall p, Rectf.contains bounds p = true -> admissible v p = true) ->
  (1 <= k)%Z ->
  (forall p, In p (seeds bounds initialSet) -> Rectf.contains bounds p = true) ->
  (forall p, In p initialSet -> isVec2 p) ->
  forall fuel out, run v bounds initialSet k g fuel <> Returned out.
Proof.
  intros Hd Hadm Hk Hseeds Hfloat fuel out. rewrite run_as_bounds.
  destruct (initialise_seeds bounds initialSet g) as (H1 & _).
  apply loop_bounds_zero_never_returns; try assumption.
  - rewrite H1. destruct initialSet; discriminate.
  - rewrite H1. intros p Hp. split; [apply Hseeds; exact Hp|].
    destruct initialSet as [|a l].
    + destruct Hp as [<-|[]]. apply getCenter_isVec2.
    + apply Hfloat. exact Hp.
Qed.




(** *** Where generated points lie *)

(** X4: on a domain with origin [(0,0)] whose extents have integer parts
    that are below 65536 and not multiples of the cell size, for a query
    point and stored points inside the domain and a radius that is a whole
    number of at most [2^30], [Grid::hasNeighbors] answers true exactly when
    a stored point passes the test of the code: its squared distance to the
    query point, computed on floats ([glm::length2( q - p )]), is below the
    float [radius * radius].  No stored point is left out by the window of
    cells. *)
Theorem hasNeighbors_exact_on_regular_domain (bounds : Rectf.t) (l : list vec2)
        (q : vec2) (radius : Q) :
  regularDomain bounds -> wholeSeparation radius -> radius <= 1073741824 ->
  Rectf.contains bounds q = true ->
  (forall p, In p l -> Rectf.contains bounds p = true) ->
  (Grid.hasNeighbors (gridOf bounds l) q radius = true
   <-> exists p, In p l
                 /\ Glm.length2 (Glm.minus q p) < Num.fmul radius radius).
Proof.
  intros Hreg Hwhole _ Hq Hl. split.
  - intro H. apply GridFacts.hasNeighbors_true_iff in H.
    destruct H as (j & p & _ & Hp & Hlt). exists p. split; [|exact Hlt].
    apply (gridOf_points bounds). eapply GridFacts.cellAt_points. exact Hp.
  - intros (p & Hp & Hlt).
    destruct (Grid.hasNeighbors (gridOf bounds l) q radius) eqn:E; [reflexivity|].
    exfalso.
    pose proof (@query_is_exact bounds l q radius Hreg Hwhole Hq Hl E p Hp) as Hle.
    exact (Qlt_not_le _ _ Hlt Hle).
Qed.

Lemma spawn_bounds_growth (n : nat) (dist : Q) (boundsFunction : vec2 -> bool)
      (bounds : Rectf.t) (center : vec2) (st : St) :
  (length (outputList (spawn_bounds n dist boundsFunction bounds center st))
   <= length (outputList st) + n)%nat.
Proof.
  revert st. induction n as [|n IH]; intro st; simpl; [lia|].
  destruct (randFloat (rng st)) as [u1 g1].
  destruct (randFloat g1) as [u2 g2].
  match goal with
  | |- context [if ?c then _ else _] => destruct c
  end.
  - etransitivity; [apply IH|]. simpl. rewrite length_app. simpl. lia.
  - etransitivity; [apply IH|]. simpl. lia.
Qed.

Lemma loop_bounds_growth (distFunction : vec2 -> Q) (boundsFunction : vec2 -> bool)
      (bounds : Rectf.t) (k : Z) (fuel : nat) :
  forall (st : St) (out : list vec2),
    produced (loop_bounds fuel distFunction boundsFunction bounds k st) = Some out ->
    (length out <= length (outputList st) + fuel * Z.to_nat k)%nat.
Proof.
  induction fuel as [|fuel IH]; intros st out H; simpl in H.
  - destruct (processingList st); simpl in H; injection H as <-; lia.
  - destruct (processingList st) as [|p l]; [simpl in H; injection H as <-; lia|].
    destruct (randInt 0 (Z.of_nat (length (p :: l)) - 1) (rng st)) as [i g1].
    destruct (pick (p :: l) i) as [[center rest]|]; [|discriminate].
    apply IH in H.
    pose proof (spawn_bounds_growth (Z.to_nat k) (distFunction center)
                  boundsFunction bounds center
                  (mkState rest (outputList st) (grid st) g1)) as Hs.
    simpl in Hs. simpl. lia.
Qed.

(** X15: each iteration of the [while] loop adds at most [k] points: after
    [n] iterations the output holds at most [|seeds| + n * k] points (and
    only the seeds when [k] is negative). *)
Theorem output_grows_by_k (v : Variant) (bounds : Rectf.t)
        (initialSet : list vec2) (k : Z) (g : G) (fuel : nat) (out : list vec2) :
  produced (run v bounds initialSet k g fuel) = Some out ->
  (length out <= length (seeds bounds initialSet) + fuel * Z.to_nat k)%nat.
Proof.
  rewrite run_as_bounds. intro H. apply loop_bounds_growth in H.
  destruct (initialise_seeds bounds initialSet g) as (_ & H2 & _).
  rewrite H2 in H. exact H.
Qed.

(** X14: the output of every entry point is never empty: whatever the
    input, the list built so far and the list returned begin with the first
    initial point, or with the centre of the bounds when there is none. *)
Theorem output_is_never_empty (v : Variant) (bounds : Rectf.t)
        (initialSet : list vec2) (k : Z) (g : G) (fuel : nat) (out : list vec2) :
  produced (run v bounds initialSet k g fuel) = Some out ->
  exists rest,
    out = hd (Rectf.getCenter bounds) initialSet :: rest.
Proof.
  intro H. destruct (run_produced _ _ _ _ _ _ H) as [(gen & ->) _].
  destruct initialSet as [|p l]; simpl; eauto.
Qed.

End SamplerLaws.

(* ------------------------------------------------------------------------- *)
(** ** The further properties at concrete runs *)

Module RunLaws.

Lemma strip94_contains_p70 :
  forall p, In p [Script.p70] -> Rectf.contains Script.strip94 p = true.
Proof. intros p [<-|[]]. vm_compute. reflexivity. Defined.

Lemma hasNeighbors_exact_on_regular_domain_witness :
  Grid.hasNeighbors (gridOf Script.strip94 [Script.p70]) (mkVec2 75 50) 10 = true.
Proof.
  apply (@hasNeighbors_exact_on_regular_domain Script.strip94 [Script.p70]
           (mkVec2 75 50) 10).
  - exact Runs.strip94_regular.
  - split; vm_compute; [discriminate | reflexivity].
  - vm_compute. discriminate.
  - vm_compute. reflexivity.
  - exact strip94_contains_p70.
  - exists Script.p70. split; [left; reflexivity|]. vm_compute. reflexivity.
Defined.

Lemma iterations_equal_output_points_witness :
  Script.scripted (ConstantSeparation 10) Script.strip94 [Script.p70] 1
                  Script.script8 10
  = Returned [Script.p70; Script.p80; Script.p90]
  /\ Script.scripted (ConstantSeparation 10) Script.strip94 [Script.p70] 1
                     Script.script8 3
     = Returned [Script.p70; Script.p80; Script.p90]
  /\ exists st', Script.scripted (ConstantSeparation 10) Script.strip94
                                 [Script.p70] 1 Script.script8 2
                 = OutOfFuel st'.
Proof.
  assert (H : Script.scripted (ConstantSeparation 10) Script.strip94 [Script.p70] 1
                              Script.script8 10
              = Returned [Script.p70; Script.p80; Script.p90])
    by (vm_compute; reflexivity).
  split; [exact H|].
  destruct (@iterations_equal_output_points Script.t Script.source Script.trig
              (ConstantSeparation 10) Script.strip94 [Script.p70] 1 Script.script8
              10 [Script.p70; Script.p80; Script.p90] H) as (_ & H3 & Hlt).
  split; [exact H3|]. apply (Hlt 2%nat). simpl. lia.
Defined.

Lemma regular_domain_run_returns_witness :
  exists out,
    Script.scripted (ConstantSeparation 10) Script.strip94 [Script.p70] 30
                    Script.script8 (Z.to_nat 9596)
    = Returned out
    /\ (Z.of_nat (length out) <= 9596)%Z.
Proof.
  apply (@regular_domain_run_returns Script.t Script.source Script.trig
           Runs.script_in_range (ConstantSeparation 10) Script.strip94
           [Script.p70] 30 Script.script8 (Z.to_nat 9596)).
  - exact Runs.strip94_regular.
  - exact strip94_contains_p70.
  - intro p. split; [split|]; vm_compute; discriminate || reflexivity.
  - vm_compute. discriminate.
Defined.

Lemma zero_separation_run_is_endless_witness :
  Script.scripted (DistFunction (fun _ => 0)) Script.square100
                  [mkVec2 (1 # 4) 7] 2 [] 5
  <> Returned [mkVec2 (1 # 4) 7].
Proof.
  apply (@zero_separation_run_is_endless Script.t Script.source Script.trig
           (DistFunction (fun _ => 0)) Script.square100 [mkVec2 (1 # 4) 7] 2 []).
  - intro p. reflexivity.
  - intros p _. reflexivity.
  - lia.
  - intros p [<-|[]]. vm_compute. reflexivity.
  - intros p [<-|[]]. split; vm_compute; reflexivity.
Defined.



Lemma output_grows_by_k_witness :
  (length [Script.p70; Script.p80; Script.p90] <= 1 + 3 * 1)%nat.
Proof.
  exact (@output_grows_by_k Script.t Script.source Script.trig
           (ConstantSeparation 10) Script.strip94 [Script.p70] 1 Script.script8 3
           [Script.p70; Script.p80; Script.p90] Runs.strip94_run).
Defined.

Lemma output_is_never_empty_witness :
  exists rest, [Script.p70; Script.p80; Script.p90] = Script.p70 :: rest.
Proof.
  exact (@output_is_never_empty Script.t Script.source Script.trig
           (ConstantSeparation 10) Script.strip94 [Script.p70] 1 Script.script8 3
           [Script.p70; Script.p80; Script.p90] Runs.strip94_run).
Defined.

End RunLaws.
